(** * Lingvatrans: the language normalizer, the session manager and the
      translation client of [lingvatrans/client.py], with the result models
      of [lingvatrans/models.py].

    The client is asynchronous Python.  The embedding below is sequential:
    one coroutine runs from its call to its return, so the reader/writer
    lock of the source ([self.rwlock]) never blocks and is not represented.
    Everything else the source does is kept: the mutable attributes of the
    [Translator] object, the aiohttp session and connector objects it
    shares by reference, the exceptions it raises or swallows, and the
    requests it sends. *)

From Stdlib Require Import ZArith String Ascii List Bool Lia.
From Stdlib Require Import Floats.PrimFloat.
From stdpp Require Import gmap strings list fin_maps.

Local Open Scope string_scope.
Local Open Scope Z_scope.

(** ** Python values that cross the wire

    [resp.json(content_type=None)] yields a Python value built from
    [None], [bool], [int], [float], [str], [list] and [dict]; floats are
    IEEE binary64, as Rocq's primitive floats are. *)

#[warnings="-register-all"]
Inductive json : Type :=
| JNull
| JBool (b : bool)
| JInt (z : Z)
| JFloat (f : float)
| JStr (s : string)
| JList (l : list json)
| JDict (m : gmap string json).

(** Python truth value, as tested by [if x:], [x and y] and [x or y]. *)
Definition truthy (v : json) : bool :=
  match v with
  | JNull => false
  | JBool b => b
  | JInt z => negb (z =? 0)
  | JFloat f => negb (PrimFloat.eqb f 0%float)
  | JStr s => negb (String.eqb s "")
  | JList l => match l with [] => false | _ :: _ => true end
  | JDict m => match map_to_list m with [] => false | _ :: _ => true end
  end.

(** ** Exceptions and results *)

Inductive exception : Type :=
| ValueError (code : string)
    (* raise ValueError(f'Unknown language code or name: {repr(code)}. ...') *)
| Exception_status (status : Z) (data : json)
    (* raise Exception(f'Lingvanex API returned status {status}: {data}') *)
| Exception_err (err : json)
    (* raise Exception(f'Lingvanex API error: {data["err"]}') *)
| ValueError_argument (arg : string)
    (* the ValueError of ProxyConnector.from_url on a URL, or of
       aiohttp.BasicAuth on a login, that it refuses *)
| AttributeError (attr : string)
    (* [.get] on a value that is no dict, [.post] on [None] *)
| RuntimeError (msg : string)
    (* aiohttp: 'Session is closed' *)
| JSONDecodeError
    (* resp.json() on a body that is not blank and does not decode as JSON *)
| ClientError (msg : string).
    (* aiohttp: connection failure, timeout, or a failure while closing *)

Inductive result (A : Type) : Type :=
| Ok (a : A)
| Raise (e : exception).
Arguments Ok {A} a.
Arguments Raise {A} e.

(** The two builtin [Exception]s of [translate], [detect] and
    [get_languages]: what the specification calls a remote API error. *)
Definition is_remote_api_error (e : exception) : bool :=
  match e with
  | Exception_status _ _ | Exception_err _ => true
  | _ => false
  end.

(** ** Strings *)

(** [str.lower] is a builtin and works on Unicode text: besides A..Z it
    moves letters outside ASCII, some of them into ASCII (the Kelvin sign
    to [k]).  The normalizer below takes it as a parameter, [str_lower].
    What it does on ASCII text is spelled out here: the letters A..Z
    move to a..z and every other character stays. *)
Definition ascii_lower_char (c : ascii) : ascii :=
  let n := nat_of_ascii c in
  if ((65 <=? n) && (n <=? 90))%nat then ascii_of_nat (n + 32) else c.

Fixpoint ascii_lower (s : string) : string :=
  match s with
  | EmptyString => EmptyString
  | String c r => String (ascii_lower_char c) (ascii_lower r)
  end.

(** A text is held as its bytes in UTF-8, so it is ASCII text when each
    of them is below 128. *)
Fixpoint is_ascii (s : string) : bool :=
  match s with
  | EmptyString => true
  | String c r => (nat_of_ascii c <? 128)%nat && is_ascii r
  end.

Definition is_ascii_letter (c : ascii) : bool :=
  let n := nat_of_ascii c in
  (((65 <=? n) && (n <=? 90)) || ((97 <=? n) && (n <=? 122)))%nat.

(** Two characters that are the same, or the two cases of one ASCII
    letter. *)
Definition same_letter (a b : ascii) : bool :=
  Ascii.eqb a b ||
  (is_ascii_letter a && is_ascii_letter b &&
   ((nat_of_ascii a + 32 =? nat_of_ascii b) ||
    (nat_of_ascii b + 32 =? nat_of_ascii a))%nat).

(** Two texts that differ in the case of ASCII letters at most. *)
Fixpoint same_up_to_case (s t : string) : bool :=
  match s, t with
  | EmptyString, EmptyString => true
  | String a s', String b t' => same_letter a b && same_up_to_case s' t'
  | _, _ => false
  end.

(** [s.startswith(p)] *)
Definition startswith (s p : string) : bool := String.prefix p s.

(** ** The static tables of [lingvatrans/constants.py]

    That module is not part of the sources at hand, so its values are
    parameters here.  [LANGUAGES] is keyed by full code, [ALPHA1_TO_FULL]
    by alpha-1 code and [LANGCODES] by English language name; the client
    only tests membership in the first and reads the other two.
    [str_lower] travels with them: it is Python's [str.lower], which the
    normalizer calls on its input. *)
Record constants : Type := {
  LANGUAGES : gmap string string;
  LANGCODES : gmap string string;
  ALPHA1_TO_FULL : gmap string string;
  TRANSLATE_URL : string;
  GET_LANGUAGES_URL : string;
  str_lower : string → string;
}.

(** What [str.lower] does on ASCII text. *)
Definition lowers_ascii (K : constants) : Prop :=
  ∀ s, is_ascii s = true → str_lower K s = ascii_lower s.

(** ** Language normalizer *)

Definition _normalize_lang (K : constants) (code : string) : result string :=
  if String.eqb code "auto" then Ok "auto"
  else match LANGUAGES K !! code with
  | Some _ => Ok code
  | None =>
    match ALPHA1_TO_FULL K !! code with
    | Some full => Ok full
    | None =>
      match LANGCODES K !! str_lower K code with
      | Some full => Ok full
      | None => Raise (ValueError code)
      end
    end
  end.

(** An input that matches nothing: not the literal, no full code, no
    alpha-1 code and, lower-cased, no language name. *)
Definition unresolved (K : constants) (code : string) : Prop :=
  code ≠ "auto" ∧ LANGUAGES K !! code = None ∧
  ALPHA1_TO_FULL K !! code = None ∧ LANGCODES K !! str_lower K code = None.

(** ** Result models ([lingvatrans/models.py]) *)

(** [src] is the caller's string or whatever the response carries under
    ['from']; [text] is whatever it carries under ['result']. *)
Record Translated : Type := {
  src : json;
  dest : string;
  origin : string;
  text : json;
  extra_data : json;
}.

Record Detected : Type := {
  lang : json;
  confidence : json;
}.

(** [confidence] as the model documents it: [None], or a float between
    0.0 and 1.0. *)
Definition confidence_in_range (v : json) : bool :=
  match v with
  | JNull => true
  | JFloat f => PrimFloat.leb 0%float f && PrimFloat.leb f 1%float
  | _ => false
  end.

(** ** aiohttp objects

    Sessions and connectors are objects with identity: [self.connector]
    and the connector inside [self._session] are one object, and closing
    the session closes the connector it owns.  They live in a store and
    are referred to by location. *)

Abbreviation loc := nat.

Record ClientTimeout : Type := { total : option Z }.

Record BasicAuth : Type := { login : string; password : string }.

Inductive connector_kind : Type :=
| TCPConnector (limit : Z)
    (* aiohttp.TCPConnector(limit=...) *)
| ProxyConnector (url : string).
    (* aiohttp_socks.ProxyConnector.from_url(url) *)

Record Connector : Type := {
  kind : connector_kind;
  conn_closed : bool;
}.

Record ClientSession : Type := {
  sess_connector : option loc;
  connector_owner : bool;
  sess_timeout : ClientTimeout;
  sess_headers : list (string * string);
}.

Record Heap : Type := {
  connectors : gmap loc Connector;
  sessions : gmap loc ClientSession;
}.

(** A location no object of the map lives at. *)
Definition fresh_loc {A : Type} (m : gmap loc A) : loc :=
  S (max_list (fst <$> map_to_list m)).

(** [connector.closed]; a connector that is gone counts as closed. *)
Definition connector_is_closed (h : Heap) (c : loc) : bool :=
  match connectors h !! c with
  | Some k => conn_closed k
  | None => true
  end.

(** [session.closed]: aiohttp answers
    [self._connector is None or self._connector.closed]. *)
Definition session_is_closed (h : Heap) (s : loc) : bool :=
  match sessions h !! s with
  | Some o =>
    match sess_connector o with
    | Some c => connector_is_closed h c
    | None => true
    end
  | None => true
  end.

(** The session object and its connector when the session is open. *)
Definition open_session (h : Heap) (s : loc) : option (ClientSession * Connector) :=
  match sessions h !! s with
  | Some o =>
    match sess_connector o with
    | Some c =>
      match connectors h !! c with
      | Some k => if conn_closed k then None else Some (o, k)
      | None => None
      end
    | None => None
    end
  | None => None
  end.

(** ** Requests and replies *)

Inductive http_method : Type := GET | POST.

(** What one [session.post] or [session.get] puts on the wire: the
    arguments of the call, and from the session the connector it goes
    through, the headers and the timeout. *)
Record request : Type := {
  req_method : http_method;
  req_url : string;
  req_data : list (string * string);
  req_proxy : option string;
  req_proxy_auth : option BasicAuth;
  req_via : connector_kind;
  req_headers : list (string * string);
  req_timeout : ClientTimeout;
}.

(** The answer to a request, or no answer at all.  An answer is a status
    and what [resp.json(content_type=None)] makes of the body: the value
    it decodes to, which is [None] ([JNull]) for an empty or blank body
    as for the text [null], or nothing when the body is not blank and is
    not JSON text, on which the decoder raises. *)
Inductive reply : Type :=
| Reply (status : Z) (body : option json)
| No_reply (msg : string).

(** ** The client object and the state of a run *)

Record Translator : Type := {
  _token : string;
  raise_exception : bool;
  timeout : ClientTimeout;
  connector_limit : Z;
  proxy : option string;
  proxy_auth : option BasicAuth;
  _proxy_url : option string;
  _use_proxy_connector : bool;
  connector : option loc;
  _session : option loc;
}.

(** [log] holds the requests sent so far, oldest first. *)
Record State : Type := {
  self : Translator;
  heap : Heap;
  log : list request;
}.

(** What the client does not control: how aiohttp closes a session or a
    connector (it may fail, and may leave the store in any shape), which
    proxy URLs [ProxyConnector.from_url] and which logins
    [aiohttp.BasicAuth] refuse with a [ValueError], and what the remote
    service answers to a request given the requests before it. *)
Record world : Type := {
  session_close : loc → Heap → result unit * Heap;
  connector_close : loc → Heap → result unit * Heap;
  refused_url : string → bool;
  refused_login : string → bool;
  remote : list request → request → reply;
}.

(** aiohttp as documented: closing a connector marks it closed; closing a
    session closes the connector it owns and lets go of it. *)
Definition aiohttp_connector_close (c : loc) (h : Heap) : result unit * Heap :=
  (Ok tt,
   {| connectors :=
        match connectors h !! c with
        | Some k => <[c := {| kind := kind k; conn_closed := true |}]> (connectors h)
        | None => connectors h
        end;
      sessions := sessions h |}).

Definition aiohttp_session_close (s : loc) (h : Heap) : result unit * Heap :=
  match sessions h !! s with
  | Some o =>
    if session_is_closed h s then (Ok tt, h)
    else
      let h1 :=
        match sess_connector o with
        | Some c => if connector_owner o then snd (aiohttp_connector_close c h) else h
        | None => h
        end in
      (Ok tt,
       {| connectors := connectors h1;
          sessions := <[s := {| sess_connector := None;
                                connector_owner := connector_owner o;
                                sess_timeout := sess_timeout o;
                                sess_headers := sess_headers o |}]> (sessions h1) |})
  | None => (Ok tt, h)
  end.

(** ** A state and exception monad for the methods *)

Definition M (A : Type) : Type := State → result A * State.

#[global] Instance M_ret : MRet M := λ A a st, (Ok a, st).

#[global] Instance M_bind : MBind M := λ A B f m st,
  match m st with
  | (Ok a, st1) => f a st1
  | (Raise e, st1) => (Raise e, st1)
  end.

Definition raise {A : Type} (e : exception) : M A := λ st, (Raise e, st).

Definition lift {A : Type} (r : result A) : M A := λ st, (r, st).

Definition get_self : M Translator := λ st, (Ok (self st), st).

Definition get_heap : M Heap := λ st, (Ok (heap st), st).

(** A library call that works on the store only. *)
Definition on_heap {A : Type} (f : Heap → result A * Heap) : M A := λ st,
  let '(r, h) := f (heap st) in (r, {| self := self st; heap := h; log := log st |}).

(** [try: m / except Exception: pass] *)
Definition try_except_pass (m : M unit) : M unit := λ st,
  match m st with
  | (Ok _, st1) => (Ok tt, st1)
  | (Raise _, st1) => (Ok tt, st1)
  end.

(** [try: m / finally: f] — [f] runs whatever [m] did; an exception out
    of [f] replaces the outcome of [m]. *)
Definition try_finally {A : Type} (m : M A) (f : M unit) : M A := λ st,
  let '(r, st1) := m st in
  match f st1 with
  | (Ok _, st2) => (r, st2)
  | (Raise e, st2) => (Raise e, st2)
  end.

(** [[await f(item) for item in items]]: one call after the other, each
    in the state the one before left; the first exception ends the loop. *)
Section list_comprehension.
Context {A B : Type} (f : A → M B).

Fixpoint for_each (items : list A) : M (list B) :=
  match items with
  | [] => mret []
  | item :: rest =>
    y ← f item;
    ys ← for_each rest;
    mret (y :: ys)
  end.
End list_comprehension.

(** [data.get(key, fallback)]: only a dict has [.get]. *)
Definition dict_get (data : json) (key : string) (fallback : json) : M json :=
  match data with
  | JDict m => mret (default fallback (m !! key))
  | _ => raise (AttributeError "get")
  end.

(** [resp.json(content_type=None)]: the decoded value, [None] for a blank
    body; a body that is not blank and not JSON text raises. *)
Definition resp_json (body : option json) : M json :=
  match body with
  | Some data => mret data
  | None => raise JSONDecodeError
  end.

(** ** Attribute assignment on [self] *)

Definition with_proxy (v : option string) (t : Translator) : Translator :=
  {| _token := _token t; raise_exception := raise_exception t;
     timeout := timeout t; connector_limit := connector_limit t;
     proxy := v; proxy_auth := proxy_auth t; _proxy_url := _proxy_url t;
     _use_proxy_connector := _use_proxy_connector t;
     connector := connector t; _session := _session t |}.

Definition with_proxy_auth (v : option BasicAuth) (t : Translator) : Translator :=
  {| _token := _token t; raise_exception := raise_exception t;
     timeout := timeout t; connector_limit := connector_limit t;
     proxy := proxy t; proxy_auth := v; _proxy_url := _proxy_url t;
     _use_proxy_connector := _use_proxy_connector t;
     connector := connector t; _session := _session t |}.

Definition with__proxy_url (v : option string) (t : Translator) : Translator :=
  {| _token := _token t; raise_exception := raise_exception t;
     timeout := timeout t; connector_limit := connector_limit t;
     proxy := proxy t; proxy_auth := proxy_auth t; _proxy_url := v;
     _use_proxy_connector := _use_proxy_connector t;
     connector := connector t; _session := _session t |}.

Definition with__use_proxy_connector (v : bool) (t : Translator) : Translator :=
  {| _token := _token t; raise_exception := raise_exception t;
     timeout := timeout t; connector_limit := connector_limit t;
     proxy := proxy t; proxy_auth := proxy_auth t; _proxy_url := _proxy_url t;
     _use_proxy_connector := v;
     connector := connector t; _session := _session t |}.

Definition with_connector (v : option loc) (t : Translator) : Translator :=
  {| _token := _token t; raise_exception := raise_exception t;
     timeout := timeout t; connector_limit := connector_limit t;
     proxy := proxy t; proxy_auth := proxy_auth t; _proxy_url := _proxy_url t;
     _use_proxy_connector := _use_proxy_connector t;
     connector := v; _session := _session t |}.

Definition with__session (v : option loc) (t : Translator) : Translator :=
  {| _token := _token t; raise_exception := raise_exception t;
     timeout := timeout t; connector_limit := connector_limit t;
     proxy := proxy t; proxy_auth := proxy_auth t; _proxy_url := _proxy_url t;
     _use_proxy_connector := _use_proxy_connector t;
     connector := connector t; _session := v |}.

(** [self.attr = v] *)
Definition assign (f : Translator → Translator) : M unit := λ st,
  (Ok tt, {| self := f (self st); heap := heap st; log := log st |}).

(** ** Object construction *)

(** [aiohttp.TCPConnector(limit=...)], [ProxyConnector.from_url(...)]:
    a new, open connector. *)
Definition new_connector (k : connector_kind) (h : Heap) : loc * Heap :=
  let c := fresh_loc (connectors h) in
  (c, {| connectors := <[c := {| kind := k; conn_closed := false |}]> (connectors h);
         sessions := sessions h |}).

(** [aiohttp.ClientSession(connector=..., connector_owner=...,
    timeout=..., headers=...)] *)
Definition new_session (c : loc) (owner : bool) (t : ClientTimeout)
    (hs : list (string * string)) (h : Heap) : loc * Heap :=
  let s := fresh_loc (sessions h) in
  (s, {| connectors := connectors h;
         sessions := <[s := {| sess_connector := Some c; connector_owner := owner;
                               sess_timeout := t; sess_headers := hs |}]> (sessions h) |}).

Definition alloc (f : Heap → loc * Heap) : M loc := λ st,
  let '(l, h) := f (heap st) in
  (Ok l, {| self := self st; heap := h; log := log st |}).

(** The value of [BasicAuth(proxy_auth[0], proxy_auth[1]) if proxy_auth
    else None] where [aiohttp.BasicAuth] accepts the login; it raises
    [ValueError] on a login with a colon. *)
Definition basic_auth (proxy_auth : option (string * string)) : option BasicAuth :=
  match proxy_auth with
  | Some (user, pass) => Some {| login := user; password := pass |}
  | None => None
  end.

Definition is_socks (proxy : string) : bool :=
  startswith proxy "socks5" || startswith proxy "socks4".

Definition _get_headers (me : Translator) : list (string * string) :=
  [("Authorization", _token me)].

(** ** [Translator.__init__]

    The constructor on arguments that [ProxyConnector.from_url] and
    [aiohttp.BasicAuth] accept.  On a proxy URL or a login they refuse
    they raise [ValueError] out of the constructor and no client comes
    to exist; [construct] is the state of a client that was built. *)

Definition __init__ (token : string) (raise_exc : bool)
    (timeout_arg : option ClientTimeout) (proxy_arg : option string)
    (proxy_auth_arg : option (string * string)) (limit : Z)
    (h : Heap) : Translator * Heap :=
  let token := if startswith token "Bearer " then token else "Bearer " +:+ token in
  let me :=
    {| _token := token; raise_exception := raise_exc;
       timeout := default {| total := Some 30 |} timeout_arg;
       connector_limit := limit;
       proxy := None; proxy_auth := None; _proxy_url := proxy_arg;
       _use_proxy_connector := false;
       connector := None; _session := None |} in
  let '(made, me, h) :=
    match proxy_arg with
    | Some p =>
      if is_socks p then
        let '(c, h1) := new_connector (ProxyConnector p) h in
        (Some c, with__use_proxy_connector true me, h1)
      else
        (None, with_proxy_auth (basic_auth proxy_auth_arg) (with_proxy (Some p) me), h)
    | None => (None, me, h)
    end in
  let '(c, h) :=
    match made with
    | Some c => (c, h)
    | None => new_connector (TCPConnector (connector_limit me)) h
    end in
  let me := with_connector (Some c) me in
  let '(s, h) := new_session c true (timeout me) (_get_headers me) h in
  (with__session (Some s) me, h).

(** The state right after construction, in an empty store. *)
Definition construct (token : string) (raise_exc : bool)
    (timeout_arg : option ClientTimeout) (proxy_arg : option string)
    (proxy_auth_arg : option (string * string)) (limit : Z) : State :=
  let '(me, h) := __init__ token raise_exc timeout_arg proxy_arg proxy_auth_arg limit
                    {| connectors := ∅; sessions := ∅ |} in
  {| self := me; heap := h; log := [] |}.

(** ** The methods of [Translator] *)

(** Input of [translate] and [detect]: one text, or a list whose items
    are again inputs ([isinstance(text, list)]). *)
#[warnings="-register-all"]
Inductive text_input : Type :=
| Text (s : string)
| TextList (items : list text_input).

(** Their output: one result, or the list of the items' outputs. *)
#[warnings="-register-all"]
Inductive results (A : Type) : Type :=
| One (a : A)
| Many (rs : list (results A)).
Arguments One {A} a.
Arguments Many {A} rs.

Section Client.
Context (K : constants) (W : world).

(** *** Session lifecycle *)

Definition _ensure_session : M unit :=
  me ← get_self;
  h ← get_heap;
  if match _session me with
     | None => true
     | Some s => session_is_closed h s
     end
  then
    c ← alloc (new_connector (TCPConnector (connector_limit me)));
    assign (with_connector (Some c));;
    me ← get_self;
    s ← alloc (new_session c true (timeout me) (_get_headers me));
    assign (with__session (Some s))
  else mret tt.

(** [async with self._get_session() as session] *)
Definition _get_session : M (option loc) :=
  me ← get_self; mret (_session me).

Definition close : M unit :=
  try_finally
    (me ← get_self;
     h ← get_heap;
     match _session me with
     | Some s =>
       if negb (session_is_closed h s)
       then try_except_pass (on_heap (session_close W s))
       else mret tt
     | None => mret tt
     end)
    (assign (with__session None);;
     try_finally
       (me ← get_self;
        h ← get_heap;
        match connector me with
        | Some c =>
          if negb (connector_is_closed h c)
          then try_except_pass (on_heap (connector_close W c))
          else mret tt
        | None => mret tt
        end)
       (assign (with_connector None))).

(** [ProxyConnector.from_url(proxy)] *)
Definition from_url (url : string) : M loc :=
  if refused_url W url then raise (ValueError_argument url)
  else alloc (new_connector (ProxyConnector url)).

(** [aiohttp.BasicAuth(proxy_auth[0], proxy_auth[1]) if proxy_auth else None] *)
Definition proxy_auth_of (proxy_auth_arg : option (string * string))
    : M (option BasicAuth) :=
  match proxy_auth_arg with
  | Some (user, _) =>
    if refused_login W user then raise (ValueError_argument user)
    else mret (basic_auth proxy_auth_arg)
  | None => mret None
  end.

Definition change_proxy (proxy_arg : option string)
    (proxy_auth_arg : option (string * string)) : M unit :=
  me ← get_self;
  h ← get_heap;
  match _session me with
  | Some s =>
    if negb (session_is_closed h s) then on_heap (session_close W s) else mret tt
  | None => mret tt
  end;;
  assign (with__session None);;
  me ← get_self;
  h ← get_heap;
  match connector me with
  | Some c =>
    if negb (connector_is_closed h c) then on_heap (connector_close W c) else mret tt
  | None => mret tt
  end;;
  assign (with_connector None);;
  assign (with_proxy None);;
  assign (with_proxy_auth None);;
  assign (with__proxy_url proxy_arg);;
  assign (with__use_proxy_connector false);;
  made ←
    match proxy_arg with
    | Some p =>
      if is_socks p then
        c ← from_url p;
        assign (with__use_proxy_connector true);;
        mret (Some c)
      else
        assign (with_proxy (Some p));;
        a ← proxy_auth_of proxy_auth_arg;
        assign (with_proxy_auth a);;
        mret None
    | None => mret None
    end;
  me ← get_self;
  c ← match made with
      | Some c => mret c
      | None => alloc (new_connector (TCPConnector (connector_limit me)))
      end;
  assign (with_connector (Some c));;
  me ← get_self;
  s ← alloc (new_session c true (timeout me) (_get_headers me));
  assign (with__session (Some s)).

Definition __aenter__ : M unit := _ensure_session.

Definition __aexit__ : M unit := close.

(** *** The wire *)

(** The request a call on session object [o], through connector [k],
    sends. *)
Definition make_request (method : http_method) (url : string)
    (data : list (string * string)) (proxy_arg : option string)
    (proxy_auth_arg : option BasicAuth) (o : ClientSession) (k : Connector)
    : request :=
  {| req_method := method; req_url := url; req_data := data;
     req_proxy := proxy_arg; req_proxy_auth := proxy_auth_arg;
     req_via := kind k; req_headers := sess_headers o;
     req_timeout := sess_timeout o |}.

(** [session.post(url, data=..., proxy=..., proxy_auth=...)] and
    [session.get(url, proxy=..., proxy_auth=...)], up to [resp.status]
    and the body: [None] has no such method, a closed session refuses,
    an open one sends the request and hands back what the remote side
    answers. *)
Definition send (session : option loc) (method : http_method) (url : string)
    (data : list (string * string)) (proxy_arg : option string)
    (proxy_auth_arg : option BasicAuth) : M (Z * option json) := λ st,
  match session with
  | None =>
    (Raise (AttributeError match method with POST => "post" | GET => "get" end), st)
  | Some s =>
    match open_session (heap st) s with
    | Some (o, k) =>
      let req := make_request method url data proxy_arg proxy_auth_arg o k in
      let st1 := {| self := self st; heap := heap st; log := log st ++ [req] |} in
      match remote W (log st) req with
      | Reply status body => (Ok (status, body), st1)
      | No_reply msg => (Raise (ClientError msg), st1)
      end
    | None => (Raise (RuntimeError "Session is closed"), st)
    end
  end.

(** *** Public API *)

(** The payload of [translate]: ['from'] only when the source language
    is not ['auto']. *)
Definition translate_payload (dest_code src_code text : string)
    : list (string * string) :=
  [("to", dest_code); ("text", text)] ++
  (if String.eqb src_code "auto" then [] else [("from", src_code)]).

(** [translate], from [status = resp.status] to the [return]s. *)
Definition translate_response (text dest src src_code : string)
    (status : Z) (body : option json) : M Translated :=
  data ← resp_json body;
  me ← get_self;
  if negb (status =? 200) then
    if raise_exception me then raise (Exception_status status data)
    else mret {| src := JStr src; dest := dest; origin := text;
                 text := JStr ""; extra_data := data |}
  else
    err ← dict_get data "err" JNull;
    if truthy err then
      if raise_exception me then raise (Exception_err err)
      else mret {| src := JStr src; dest := dest; origin := text;
                   text := JStr ""; extra_data := data |}
    else
      translated_text ← dict_get data "result" (JStr "");
      detected_src ← dict_get data "from" (JStr src_code);
      let src' := if String.eqb src_code "auto" && truthy detected_src
                  then detected_src else JStr src in
      mret {| src := src'; dest := dest; origin := text;
              text := translated_text; extra_data := data |}.

(** [translate] on one text: the body below the [isinstance] test. *)
Definition translate_text (text dest src : string) : M Translated :=
  dest_code ← lift (_normalize_lang K dest);
  src_code ← lift (_normalize_lang K src);
  _ensure_session;;
  let payload := translate_payload dest_code src_code text in
  session ← _get_session;
  me ← get_self;
  '(status, body) ← send session POST (TRANSLATE_URL K) payload
                      (proxy me) (proxy_auth me);
  translate_response text dest src src_code status body.

Fixpoint translate (text : text_input) (dest src : string)
    : M (results Translated) :=
  match text with
  | TextList items =>
    rs ← for_each (λ item, translate item dest src) items; mret (Many rs)
  | Text s =>
    r ← translate_text s dest src; mret (One r)
  end.

(** [detect], from [status = resp.status] to the [return]s. *)
Definition detect_response (status : Z) (body : option json) : M Detected :=
  data ← resp_json body;
  me ← get_self;
  if negb (status =? 200) then
    if raise_exception me then raise (Exception_status status data)
    else mret {| lang := JStr "unknown"; confidence := JNull |}
  else
    err ← dict_get data "err" JNull;
    if truthy err then
      if raise_exception me then raise (Exception_err err)
      else mret {| lang := JStr "unknown"; confidence := JNull |}
    else
      source_language ← dict_get data "sourceLanguage" JNull;
      lang' ← (if truthy source_language then mret source_language
               else dict_get data "from" (JStr "unknown"));
      confidence' ← dict_get data "score" JNull;
      mret {| lang := lang'; confidence := confidence' |}.

Definition detect_payload (text : string) : list (string * string) :=
  [("to", "en_US"); ("text", text)].

Definition detect_url : string := TRANSLATE_URL K +:+ "?platform=dp".

(** [detect] on one text. *)
Definition detect_text (text : string) : M Detected :=
  _ensure_session;;
  let payload := detect_payload text in
  let url := detect_url in
  session ← _get_session;
  me ← get_self;
  '(status, body) ← send session POST url payload (proxy me) (proxy_auth me);
  detect_response status body.

Fixpoint detect (text : text_input) : M (results Detected) :=
  match text with
  | TextList items =>
    rs ← for_each (λ item, detect item) items; mret (Many rs)
  | Text s =>
    r ← detect_text s; mret (One r)
  end.

Definition get_languages : M json :=
  _ensure_session;;
  session ← _get_session;
  me ← get_self;
  '(_, body) ← send session GET (GET_LANGUAGES_URL K) [] (proxy me) (proxy_auth me);
  data ← resp_json body;
  me ← get_self;
  err ← dict_get data "err" JNull;
  if truthy err then
    if raise_exception me then raise (Exception_err err)
    else mret (JList [])
  else dict_get data "result" (JList []).

(** *** Reading a state *)

(** The session object [self._session] refers to, with its connector,
    when there is one and it is open. *)
Definition current (st : State) : option (ClientSession * Connector) :=
  match _session (self st) with
  | Some s => open_session (heap st) s
  | None => None
  end.

(** The request a public operation sends from state [st], once
    [_ensure_session] has run. *)
Definition request_of (st : State) (method : http_method) (url : string)
    (data : list (string * string)) : option request :=
  let st1 := snd (_ensure_session st) in
  match current st1 with
  | Some (o, k) =>
    Some (make_request method url data (proxy (self st1)) (proxy_auth (self st1)) o k)
  | None => None
  end.

(** The state a public operation is in once it has sent [req] from
    state [st]. *)
Definition sent (st : State) (req : request) : State :=
  let st1 := snd (_ensure_session st) in
  {| self := self st1; heap := heap st1; log := log st ++ [req] |}.

End Client.

(** ** Reading results *)

(** The value a form payload carries under [key], if any. *)
Fixpoint field (key : string) (data : list (string * string)) : option string :=
  match data with
  | [] => None
  | (k, v) :: rest => if String.eqb k key then Some v else field key rest
  end.

(** What [translate] hands back when it absorbs a failure. *)
Definition degraded (s dest src : string) (data : json) : Translated :=
  {| src := JStr src; dest := dest; origin := s; text := JStr "";
     extra_data := data |}.

(** The [src] attribute [translate] gives a successful result whose
    body is the dict [m]. *)
Definition reported_src (src src_code : string) (m : gmap string json) : json :=
  let detected_src := default (JStr src_code) (m !! "from") in
  if String.eqb src_code "auto" && truthy detected_src then detected_src
  else JStr src.

(** What [detect] hands back when it absorbs a failure. *)
Definition unknown : Detected := {| lang := JStr "unknown"; confidence := JNull |}.

(** The [lang] attribute [detect] gives a successful result whose body is
    the dict [m]. *)
Definition reported_lang (m : gmap string json) : json :=
  let source_language := default JNull (m !! "sourceLanguage") in
  if truthy source_language then source_language
  else default (JStr "unknown") (m !! "from").

(** The connector the current session sends through, when it is open. *)
Definition via (st : State) : option connector_kind :=
  match current st with
  | Some (_, k) => Some (kind k)
  | None => None
  end.

(** What a proxy argument asks for: the connector, and the [proxy] and
    [proxy_auth] handed to each request. *)
Definition wanted_connector (proxy_arg : option string) (limit : Z) : connector_kind :=
  match proxy_arg with
  | Some p => if is_socks p then ProxyConnector p else TCPConnector limit
  | None => TCPConnector limit
  end.

Definition wanted_proxy (proxy_arg : option string) : option string :=
  match proxy_arg with
  | Some p => if is_socks p then None else Some p
  | None => None
  end.

Definition wanted_proxy_auth (proxy_arg : option string)
    (proxy_auth_arg : option (string * string)) : option BasicAuth :=
  match proxy_arg with
  | Some p => if is_socks p then None else basic_auth proxy_auth_arg
  | None => None
  end.

Definition wanted_flag (proxy_arg : option string) : bool :=
  match proxy_arg with
  | Some p => is_socks p
  | None => false
  end.

(** The argument of [change_proxy] that aiohttp refuses, if there is
    one: the URL of a SOCKS proxy, the login for an HTTP proxy. *)
Definition refused_argument (W : world) (proxy_arg : option string)
    (proxy_auth_arg : option (string * string)) : option string :=
  match proxy_arg with
  | Some p =>
    if is_socks p then if refused_url W p then Some p else None
    else match proxy_auth_arg with
         | Some (user, _) => if refused_login W user then Some user else None
         | None => None
         end
  | None => None
  end.

(** The attributes of a client that [close] has run on. *)
Definition closed_client (me : Translator) : Translator :=
  with_connector None (with__session None me).

(** ** What [_ensure_session] builds *)

(** The session and the connector [_ensure_session] builds for [me]. *)
Definition plain_session (me : Translator) (c : loc) : ClientSession :=
  {| sess_connector := Some c; connector_owner := true;
     sess_timeout := timeout me; sess_headers := _get_headers me |}.

Definition plain_connector (me : Translator) : Connector :=
  {| kind := TCPConnector (connector_limit me); conn_closed := false |}.

(** The state [_ensure_session] leaves when it has to build them, at
    locations [c] and [s]. *)
Definition recreated (st : State) (c s : loc) : State :=
  {| self := with__session (Some s) (with_connector (Some c) (self st));
     heap := {| connectors := <[c := plain_connector (self st)]> (connectors (heap st));
                sessions := <[s := plain_session (self st) c]> (sessions (heap st)) |};
     log := log st |}.

(** ** Running several calls in a row *)

(** [chain f items st ys st']: calling [f] on the items one after the
    other, each call starting where the one before ended, returns [ys]
    item by item and ends in [st']. *)
Inductive chain {A B : Type} (f : A → M B) : list A → State → list B → State → Prop :=
| chain_nil st : chain f [] st [] st
| chain_cons item rest y ys st st1 st2 :
    f item st = (Ok y, st1) →
    chain f rest st1 ys st2 →
    chain f (item :: rest) st (y :: ys) st2.

(** [n] calls of [m] in a row, stopping at the first exception. *)
Fixpoint repeat_call (m : M unit) (n : nat) : M unit :=
  match n with
  | O => mret tt
  | S n' => m;; repeat_call m n'
  end.

(** Whether an input holds a text at all. *)
Fixpoint has_text (t : text_input) : bool :=
  match t with
  | Text _ => true
  | TextList items => existsb has_text items
  end.

(** ** Instances for the examples *)

(** A two-language cut of the tables; the examples normalize ASCII text
    only, on which [str.lower] is [ascii_lower]. *)
Definition two_languages : constants :=
  {| LANGUAGES := {[ "en_US" := "english"; "fr_FR" := "french" ]};
     LANGCODES := {[ "english" := "en_US"; "french" := "fr_FR" ]};
     ALPHA1_TO_FULL := {[ "en" := "en_US"; "fr" := "fr_FR" ]};
     TRANSLATE_URL := "https://api-b2b.backenster.com/b1/api/v3/translate";
     GET_LANGUAGES_URL := "https://api-b2b.backenster.com/b1/api/v3/getLanguages";
     str_lower := ascii_lower |}.

(** [aiohttp.BasicAuth] refuses a login with a colon in it. *)
Fixpoint has_colon (s : string) : bool :=
  match s with
  | EmptyString => false
  | String c r => Ascii.eqb c ":" || has_colon r
  end.

(** [ProxyConnector.from_url] knows the schemes [socks5] and [socks4]
    among those [is_socks] lets through; it refuses [socks5h] or
    [socks4a], and more than is spelled out here (a URL without a
    port). *)
Definition unknown_scheme (url : string) : bool :=
  negb (startswith url "socks5://" || startswith url "socks4://").

(** aiohttp as documented, and a remote side that always answers [r]. *)
Definition answering (r : reply) : world :=
  {| session_close := aiohttp_session_close;
     connector_close := aiohttp_connector_close;
     refused_url := unknown_scheme;
     refused_login := has_colon;
     remote := λ _ _, r |}.

(** aiohttp failing on every close, and a remote side that always
    answers [r]. *)
Definition failing_close (r : reply) : world :=
  {| session_close := λ _ h, (Raise (ClientError "close failed"), h);
     connector_close := λ _ h, (Raise (ClientError "close failed"), h);
     refused_url := unknown_scheme;
     refused_login := has_colon;
     remote := λ _ _, r |}.

(** A remote side that answers a text with the text in capitals. *)
Definition upper_ascii (c : ascii) : ascii :=
  let n := nat_of_ascii c in
  if ((97 <=? n) && (n <=? 122))%nat then ascii_of_nat (n - 32) else c.

Fixpoint upper (s : string) : string :=
  match s with
  | EmptyString => EmptyString
  | String c r => String (upper_ascii c) (upper r)
  end.

Definition shouting : world :=
  {| session_close := aiohttp_session_close;
     connector_close := aiohttp_connector_close;
     refused_url := unknown_scheme;
     refused_login := has_colon;
     remote := λ _ req,
       match field "text" (req_data req) with
       | Some t => Reply 200 (Some (JDict {[ "result" := JStr (upper t) ]}))
       | None => Reply 400 (Some (JDict {[ "err" := JStr "no text" ]}))
       end |}.

(** Bodies the remote side may send. *)
Definition bonjour : json :=
  JDict {[ "result" := JStr "Bonjour"; "from" := JStr "en_US" ]}.

Definition bonjour_err_null : json :=
  JDict {[ "err" := JNull; "result" := JStr "Bonjour" ]}.

Definition bonjour_from_empty : json :=
  JDict {[ "result" := JStr "Bonjour"; "from" := JStr "" ]}.

Definition bonjour_from_null : json :=
  JDict {[ "result" := JStr "Bonjour"; "from" := JNull ]}.

Definition boom : json := JDict {[ "err" := JStr "boom" ]}.

Definition french_err_null : json :=
  JDict {[ "err" := JNull; "sourceLanguage" := JStr "fr_FR" ]}.

Definition french_scored (score : json) : json :=
  JDict {[ "sourceLanguage" := JStr "fr_FR"; "score" := score ]}.

(** A client with the defaults of the constructor and the given policy. *)
Definition fresh_client (raise_exc : bool) : State :=
  construct "token" raise_exc None None None 100.

(** The request [translate('Hello', dest='fr')] sends from a new client. *)
Definition hello_request : request :=
  {| req_method := POST;
     req_url := TRANSLATE_URL two_languages;
     req_data := [("to", "fr_FR"); ("text", "Hello")];
     req_proxy := None; req_proxy_auth := None;
     req_via := TCPConnector 100;
     req_headers := [("Authorization", "Bearer token")];
     req_timeout := {| total := Some 30 |} |}.

(** ** The rest of the package

    What follows models the code around the methods above: the way a
    client is used as a context manager, the command-line tool of
    [lingvatrans/translate.py], and a few readings of inputs, results and
    client attributes that the properties below are stated with. *)

(** The attributes no method assigns to after [__init__]. *)
Definition settings (me : Translator) : string * bool * ClientTimeout * Z :=
  (_token me, raise_exception me, timeout me, connector_limit me).

(** The attributes only [__init__] and [change_proxy] assign to. *)
Definition proxy_settings (me : Translator)
    : option string * option BasicAuth * option string * bool :=
  (proxy me, proxy_auth me, _proxy_url me, _use_proxy_connector me).

(** [isinstance(v, dict)] *)
Definition is_dict (v : json) : bool :=
  match v with JDict _ => true | _ => false end.

(** The texts an input holds, in order. *)
Fixpoint texts_of (t : text_input) : list string :=
  match t with
  | Text s => [s]
  | TextList items => concat (map texts_of items)
  end.

(** The results an output holds, in order. *)
Fixpoint flatten {A : Type} (r : results A) : list A :=
  match r with
  | One a => [a]
  | Many rs => concat (map flatten rs)
  end.

(** [async with translator: body].  Python awaits [__aenter__], runs the
    body, and awaits [__aexit__] whether the body returned or raised;
    [__aexit__] returns [None], so an exception of the body goes on to
    the caller. *)
Definition async_with {A : Type} (W : world) (body : M A) : M A :=
  __aenter__;; try_finally body (__aexit__ W).

(** *** The command-line tool

    [DEFAULT_BEARER_TOKEN] and [DEFAULT_RAISE_EXCEPTION] come from the
    constants module as the tables do; [str_of] stands for Python's
    [str()], which [str.format] applies to the fields it prints. *)
Record defaults : Type := {
  DEFAULT_BEARER_TOKEN : string;
  DEFAULT_RAISE_EXCEPTION : bool;
  str_of : json → string;
}.

(** [Translator()] *)
Definition Translator_default (D : defaults) : State :=
  construct (DEFAULT_BEARER_TOKEN D) (DEFAULT_RAISE_EXCEPTION D) None None None 100.

(** What [argparse] hands to [async_main]. *)
Record Namespace : Type := {
  args_text : string;
  args_dest : string;
  args_src : string;
  args_detect : bool;
}.

Definition newline : string := String (ascii_of_nat 10) EmptyString.

(** ["[{lang}, {confidence}] {text}".format(...)] *)
Definition format_detection (D : defaults) (d : Detected) (text_arg : string) : string :=
  "[" +:+ str_of D (lang d) +:+ ", " +:+ str_of D (confidence d) +:+ "] " +:+ text_arg.

(** The three-line template of a translation, stripped and filled in. *)
Definition format_translation (D : defaults) (t : Translated) : string :=
  "[" +:+ str_of D (src t) +:+ "] " +:+ origin t +:+ newline +:+
  "    ->" +:+ newline +:+
  "[" +:+ dest t +:+ "] " +:+ str_of D (text t).

(** [async_main], from the parsed arguments on: the outcome, the state
    of the client it made, and the lines it printed. *)
Definition async_main (K : constants) (W : world) (D : defaults) (args : Namespace)
    : result unit * State * list string :=
  let translator := Translator_default D in
  let '(r, st1, out) :=
    if args_detect args then
      match detect K W (Text (args_text args)) translator with
      | (Ok (One d), st1) => (Ok tt, st1, [format_detection D d (args_text args)])
      | (Ok (Many _), st1) => (Raise (AttributeError "lang"), st1, [])
      | (Raise e, st1) => (Raise e, st1, [])
      end
    else
      match translate K W (Text (args_text args)) (args_dest args) (args_src args)
              translator with
      | (Ok (One t), st1) => (Ok tt, st1, [format_translation D t])
      | (Ok (Many _), st1) => (Raise (AttributeError "src"), st1, [])
      | (Raise e, st1) => (Raise e, st1, [])
      end in
  match close W st1 with
  | (Ok _, st2) => (r, st2, out)
  | (Raise e, st2) => (Raise e, st2, out)
  end.

(** The parser's defaults: [--dest en], [--src auto], no [--detect]. *)
Definition parse_defaults (text_arg : string) : Namespace :=
  {| args_text := text_arg; args_dest := "en"; args_src := "auto";
     args_detect := false |}.

(** Defaults for the examples; [str()] is spelled out for the values the
    examples print. *)
Definition example_defaults : defaults :=
  {| DEFAULT_BEARER_TOKEN := "token";
     DEFAULT_RAISE_EXCEPTION := false;
     str_of := λ v, match v with
                    | JStr s => s
                    | JNull => "None"
                    | JBool true => "True"
                    | JBool false => "False"
                    | _ => "?"
                    end |}.

(** What [get_languages] makes of a body, by cases. *)
Definition languages_outcome (raise_exc : bool) (body : option json) : result json :=
  match body with
  | None => Raise JSONDecodeError
  | Some (JDict m) =>
    let err := default JNull (m !! "err") in
    if truthy err then
      if raise_exc then Raise (Exception_err err) else Ok (JList [])
    else Ok (default (JList []) (m !! "result"))
  | Some _ => Raise (AttributeError "get")
  end.

Definition is_ok {A : Type} (r : result A) : bool :=
  match r with Ok _ => true | Raise _ => false end.

(** [footprint n st out]: a computation that started in [st] and ended
    with [out] left the settings and the proxy settings of the client as
    they were and added at most [n] requests to the log, exactly [n]
    when it returned. *)
Definition footprint {A : Type} (n : nat) (st : State) (out : result A * State) : Prop :=
  settings (self (snd out)) = settings (self st) ∧
  proxy_settings (self (snd out)) = proxy_settings (self st) ∧
  ∃ new, log (snd out) = (log st ++ new)%list ∧
         (length new ≤ n)%nat ∧
         (is_ok (fst out) = true → length new = n).

(** The remote side always answers, and with a JSON object. *)
Definition always_answers_objects (W0 : world) : Prop :=
  ∀ l req, ∃ status m, remote W0 l req = Reply status (Some (JDict m)).

(** Every alias of the two alias tables leads to a full code of the known
    set. *)
Definition aliases_lead_to_full_codes (K : constants) : Prop :=
  map_Forall (λ _ full, is_Some (LANGUAGES K !! full)) (ALPHA1_TO_FULL K) ∧
  map_Forall (λ _ full, is_Some (LANGUAGES K !! full)) (LANGCODES K).

(** A nested input for the examples. *)
Definition nested_input : text_input :=
  TextList [Text "a"; TextList [Text "b"; TextList []]; Text "c"].

(** * Properties *)

(** ** The normalizer *)

Section Normalizer.
Context (K : constants).

Lemma eqb_auto_false (code : string) : code ≠ "auto" → String.eqb code "auto" = false.
Proof. intros Hne. apply String.eqb_neq. exact Hne. Qed.

Lemma normalize_auto : _normalize_lang K "auto" = Ok "auto".
Proof. reflexivity. Qed.

Lemma normalize_full_code (c : string) :
  is_Some (LANGUAGES K !! c) → _normalize_lang K c = Ok c.
Proof.
  intros [name Hname]. unfold _normalize_lang.
  destruct (String.eqb c "auto") eqn:Hauto.
  - apply String.eqb_eq in Hauto. now subst c.
  - now rewrite Hname.
Qed.

Lemma normalize_alpha1 (a c : string) :
  a ≠ "auto" → LANGUAGES K !! a = None →
  ALPHA1_TO_FULL K !! a = Some c → _normalize_lang K a = Ok c.
Proof.
  intros Hauto Hfull Ha. unfold _normalize_lang.
  now rewrite (eqb_auto_false _ Hauto), Hfull, Ha.
Qed.

Lemma normalize_name (s c : string) :
  s ≠ "auto" → LANGUAGES K !! s = None → ALPHA1_TO_FULL K !! s = None →
  LANGCODES K !! str_lower K s = Some c → _normalize_lang K s = Ok c.
Proof.
  intros Hauto Hfull Ha Hname. unfold _normalize_lang.
  now rewrite (eqb_auto_false _ Hauto), Hfull, Ha, Hname.
Qed.

Lemma normalize_unresolved (code : string) :
  unresolved K code → _normalize_lang K code = Raise (ValueError code).
Proof.
  intros (Hauto & Hfull & Ha & Hname). unfold _normalize_lang.
  now rewrite (eqb_auto_false _ Hauto), Hfull, Ha, Hname.
Qed.

(** The normalizer raises on unresolved inputs only. *)
Lemma normalize_raises_iff (code : string) (e : exception) :
  _normalize_lang K code = Raise e ↔ unresolved K code ∧ e = ValueError code.
Proof.
  split.
  - unfold _normalize_lang, unresolved.
    destruct (String.eqb code "auto") eqn:Hauto; [discriminate|].
    apply String.eqb_neq in Hauto.
    destruct (LANGUAGES K !! code); [discriminate|].
    destruct (ALPHA1_TO_FULL K !! code); [discriminate|].
    destruct (LANGCODES K !! str_lower K code); [discriminate|].
    intros [= <-]. auto.
  - intros [Hun ->]. now apply normalize_unresolved.
Qed.

(** [ascii_lower] maps a text to the lower-case text it differs from in
    case only. *)
Lemma ascii_lower_char_same_letter (a b : ascii) :
  same_letter a b = true → ascii_lower_char b = b → ascii_lower_char a = b.
Proof.
  unfold same_letter, is_ascii_letter, ascii_lower_char.
  intros Hsame Hb.
  destruct (Ascii.eqb a b) eqn:Heq.
  { apply Ascii.eqb_eq in Heq. now subst a. }
  cbn [orb] in Hsame.
  pose proof (nat_ascii_bounded a) as Ha256.
  pose proof (nat_ascii_bounded b) as Hb256.
  assert (Hnb : ¬ (65 <= nat_of_ascii b <= 90)%nat).
  { intros [Hlo Hhi].
    rewrite (proj2 (Nat.leb_le _ _) Hlo), (proj2 (Nat.leb_le _ _) Hhi) in Hb.
    cbn [andb] in Hb.
    apply (f_equal nat_of_ascii) in Hb.
    rewrite nat_ascii_embedding in Hb; lia. }
  apply andb_prop in Hsame as [Hletters Hshift].
  apply andb_prop in Hletters as [Hla Hlb].
  assert (Hab : (nat_of_ascii a + 32 = nat_of_ascii b)%nat
                ∧ (65 <= nat_of_ascii a <= 90)%nat).
  { apply orb_prop in Hshift.
    apply orb_prop in Hla. apply orb_prop in Hlb.
    rewrite !andb_true_iff, !Nat.leb_le in Hla, Hlb.
    rewrite !Nat.eqb_eq in Hshift. lia. }
  destruct Hab as [Hshift32 [Hlo Hhi]].
  rewrite (proj2 (Nat.leb_le _ _) Hlo), (proj2 (Nat.leb_le _ _) Hhi). cbn [andb].
  rewrite Hshift32. apply ascii_nat_embedding.
Qed.

Lemma ascii_lower_same_up_to_case (s t : string) :
  same_up_to_case s t = true → ascii_lower t = t → ascii_lower s = t.
Proof.
  revert t. induction s as [|a s IH]; intros [|b t]; simpl; try discriminate.
  - reflexivity.
  - intros Hsame Ht. apply andb_prop in Hsame as [Hab Hst].
    injection Ht as Hb Ht'.
    rewrite (ascii_lower_char_same_letter a b Hab Hb).
    now rewrite (IH t Hst Ht').
Qed.

(** C2: the normalizer is a function of the tables and of [str.lower]
    alone, and resolves in a fixed order: ['auto'] stays ['auto']; a
    full code of the known set is returned as it is; an alpha-1 code
    that no earlier step takes resolves to the full code it is mapped
    to; an input that no earlier step takes and whose [str.lower] form
    is an English name of the table resolves to the full code of that
    name.  So the name is matched whatever its case: with [str.lower]
    doing on ASCII text what Python's does, an ASCII input that differs
    in the case of its letters only from a lower-case English name of
    the table, and that no earlier step takes, resolves to the full
    code of that name. *)
Theorem normalize_resolution_order :
  _normalize_lang K "auto" = Ok "auto" ∧
  (∀ c, is_Some (LANGUAGES K !! c) → _normalize_lang K c = Ok c) ∧
  (∀ a c, ALPHA1_TO_FULL K !! a = Some c →
          a ≠ "auto" → LANGUAGES K !! a = None →
          _normalize_lang K a = Ok c) ∧
  (∀ n c, LANGCODES K !! str_lower K n = Some c →
          n ≠ "auto" → LANGUAGES K !! n = None → ALPHA1_TO_FULL K !! n = None →
          _normalize_lang K n = Ok c) ∧
  (lowers_ascii K →
   ∀ n name c, LANGCODES K !! name = Some c → ascii_lower name = name →
               is_ascii n = true → same_up_to_case n name = true →
               n ≠ "auto" → LANGUAGES K !! n = None → ALPHA1_TO_FULL K !! n = None →
               _normalize_lang K n = Ok c).
Proof.
  split; [apply normalize_auto|].
  split; [apply normalize_full_code|].
  split; [|split].
  - intros a c Ha Hauto Hfull. now apply normalize_alpha1.
  - intros n c Hname Hauto Hfull Ha. now apply normalize_name.
  - intros Hlower n name c Hname Hlowercase Hascii Hsame Hauto Hfull Ha.
    apply normalize_name; try assumption.
    rewrite (Hlower n Hascii).
    now rewrite (ascii_lower_same_up_to_case n name Hsame Hlowercase).
Qed.

End Normalizer.

(** ** The store *)

Lemma fresh_loc_unused {A : Type} (m : gmap loc A) : m !! fresh_loc m = None.
Proof.
  destruct (m !! fresh_loc m) as [x|] eqn:Hx; [|reflexivity].
  exfalso.
  apply elem_of_map_to_list in Hx.
  assert (Hin : fresh_loc m ∈ fst <$> map_to_list m).
  { apply list_elem_of_fmap. exists (fresh_loc m, x). split; [reflexivity|exact Hx]. }
  apply max_list_elem_of_le in Hin. unfold fresh_loc in Hin. lia.
Qed.

Lemma open_session_not_closed (h : Heap) (s : loc) (ok : ClientSession * Connector) :
  open_session h s = Some ok → session_is_closed h s = false.
Proof.
  unfold open_session, session_is_closed, connector_is_closed.
  destruct (sessions h !! s) as [o|]; [|discriminate].
  destruct (sess_connector o) as [c|]; [|discriminate].
  destruct (connectors h !! c) as [k|]; [|discriminate].
  destruct (conn_closed k); [discriminate|reflexivity].
Qed.

Lemma open_session_none_closed (h : Heap) (s : loc) :
  open_session h s = None → session_is_closed h s = true.
Proof.
  unfold open_session, session_is_closed, connector_is_closed.
  destruct (sessions h !! s) as [o|]; [|reflexivity].
  destruct (sess_connector o) as [c|]; [|reflexivity].
  destruct (connectors h !! c) as [k|]; [|reflexivity].
  destruct (conn_closed k); [reflexivity|discriminate].
Qed.

(** ** The session manager *)

Ltac run :=
  unfold from_url, proxy_auth_of;
  unfold mbind, M_bind, mret, M_ret, get_self, get_heap, assign, alloc,
    raise, lift, on_heap, try_except_pass, try_finally, _get_session;
  simpl.

(** The branches of [change_proxy] on its arguments. *)
Ltac proxy_cases W proxy_arg proxy_auth_arg :=
  let p := fresh "p" in
  let user := fresh "user" in
  let pass := fresh "pass" in
  destruct proxy_arg as [p|];
    [destruct (is_socks p);
       [destruct (refused_url W p)
       |destruct proxy_auth_arg as [[user pass]|];
          [destruct (refused_login W user)|]]
    |].

Section Session.
Context (W : world).

Lemma ensure_keeps (st : State) (ok : ClientSession * Connector) :
  current st = Some ok → _ensure_session st = (Ok tt, st).
Proof.
  unfold current, _ensure_session. run.
  destruct (_session (self st)) as [s|]; [|discriminate].
  intros Hopen. now rewrite (open_session_not_closed _ _ _ Hopen).
Qed.

Lemma ensure_recreates (st : State) :
  current st = None →
  ∃ c s, _ensure_session st = (Ok tt, recreated st c s) ∧
         connectors (heap st) !! c = None ∧ sessions (heap st) !! s = None.
Proof.
  intros Hdead.
  exists (fresh_loc (connectors (heap st))), (fresh_loc (sessions (heap st))).
  split; [|split; apply fresh_loc_unused].
  unfold current in Hdead. unfold _ensure_session. run.
  destruct (_session (self st)) as [s|].
  - now rewrite (open_session_none_closed _ _ Hdead).
  - reflexivity.
Qed.

Lemma current_recreated (st : State) (c s : loc) :
  current (recreated st c s) = Some (plain_session (self st) c, plain_connector (self st)).
Proof.
  unfold current, recreated, open_session. simpl.
  rewrite lookup_insert_eq. simpl. now rewrite lookup_insert_eq.
Qed.

(** Whatever the state, [_ensure_session] returns, leaves an open
    session behind, and touches neither the log nor any attribute but
    [connector] and [_session]. *)
Lemma ensure_total (st : State) :
  ∃ st1 o k,
    _ensure_session st = (Ok tt, st1) ∧ current st1 = Some (o, k) ∧
    log st1 = log st ∧
    raise_exception (self st1) = raise_exception (self st) ∧
    proxy (self st1) = proxy (self st) ∧
    proxy_auth (self st1) = proxy_auth (self st).
Proof.
  destruct (current st) as [[o k]|] eqn:Hcur.
  - exists st, o, k. rewrite (ensure_keeps _ _ Hcur). repeat split; assumption.
  - destruct (ensure_recreates _ Hcur) as (c & s & Hrun & _ & _).
    exists (recreated st c s), (plain_session (self st) c), (plain_connector (self st)).
    rewrite Hrun, current_recreated. repeat split.
Qed.

(** [close] returns whatever aiohttp does, and leaves [_session] and
    [connector] at [None]. *)
Lemma close_total (st : State) :
  ∃ h, close W st =
       (Ok tt, {| self := with_connector None (with__session None (self st));
                  heap := h; log := log st |}).
Proof.
  unfold close. run.
  destruct (_session (self st)) as [s|]; simpl.
  - destruct (session_is_closed (heap st) s); simpl.
    + destruct (connector (self st)) as [c|]; simpl.
      * destruct (connector_is_closed (heap st) c); simpl; [eauto|].
        destruct (connector_close W c (heap st)) as [[[]|e] h]; simpl; eauto.
      * eauto.
    + destruct (session_close W s (heap st)) as [[[]|e] h]; simpl.
      * destruct (connector (self st)) as [c|]; simpl; [|eauto].
        destruct (connector_is_closed h c); simpl; [eauto|].
        destruct (connector_close W c h) as [[[]|e] h']; simpl; eauto.
      * destruct (connector (self st)) as [c|]; simpl; [|eauto].
        destruct (connector_is_closed h c); simpl; [eauto|].
        destruct (connector_close W c h) as [[[]|e'] h']; simpl; eauto.
  - destruct (connector (self st)) as [c|]; simpl; [|eauto].
    destruct (connector_is_closed (heap st) c); simpl; [eauto|].
    destruct (connector_close W c (heap st)) as [[[]|e] h]; simpl; eauto.
Qed.

End Session.

(** ** The translation client *)

Section Calls.
Context (K : constants) (W : world).

Lemma request_of_total (st : State) (method : http_method) (url : string)
    (data : list (string * string)) :
  ∃ req, request_of st method url data = Some req ∧
         req_method req = method ∧ req_url req = url ∧ req_data req = data ∧
         req_proxy req = proxy (self st) ∧
         req_proxy_auth req = proxy_auth (self st).
Proof.
  destruct (ensure_total st) as (st1 & o & k & Hrun & Hcur & _ & _ & Hp & Hpa).
  unfold request_of. rewrite Hrun. simpl. rewrite Hcur.
  eexists. split; [reflexivity|]. simpl. auto.
Qed.

Lemma sent_raise_exception (st : State) (req : request) :
  raise_exception (self (sent st req)) = raise_exception (self st).
Proof.
  destruct (ensure_total st) as (st1 & o & k & Hrun & _ & _ & Hre & _).
  unfold sent. now rewrite Hrun.
Qed.

(** A call of [send] right after [_ensure_session]. *)
Lemma ensure_then_send (st : State) (method : http_method) (url : string)
    (data : list (string * string)) (req : request) :
  request_of st method url data = Some req →
  ∃ st1, _ensure_session st = (Ok tt, st1) ∧
    send W (_session (self st1)) method url data
      (proxy (self st1)) (proxy_auth (self st1)) st1 =
    match remote W (log st) req with
    | Reply status body => (Ok (status, body), sent st req)
    | No_reply msg => (Raise (ClientError msg), sent st req)
    end.
Proof.
  destruct (ensure_total st) as (st1 & o & k & Hrun & Hcur & Hlog & _).
  unfold request_of, sent. rewrite Hrun. simpl. rewrite Hcur.
  intros [= <-]. exists st1. split; [reflexivity|].
  unfold current in Hcur. unfold send.
  destruct (_session (self st1)) as [s|]; [|discriminate].
  rewrite Hcur, Hlog. reflexivity.
Qed.

Lemma translate_text_run (st : State) (s dest src dest_code src_code : string)
    (req : request) :
  _normalize_lang K dest = Ok dest_code →
  _normalize_lang K src = Ok src_code →
  request_of st POST (TRANSLATE_URL K) (translate_payload dest_code src_code s)
    = Some req →
  translate_text K W s dest src st =
  match remote W (log st) req with
  | Reply status body =>
    translate_response s dest src src_code status body (sent st req)
  | No_reply msg => (Raise (ClientError msg), sent st req)
  end.
Proof.
  intros Hdest Hsrc Hreq.
  destruct (ensure_then_send _ _ _ _ _ Hreq) as (st1 & Hrun & Hsend).
  unfold translate_text. run. rewrite Hdest, Hsrc, Hrun. simpl.
  rewrite Hsend. now destruct (remote W (log st) req).
Qed.

Lemma detect_text_run (st : State) (s : string) (req : request) :
  request_of st POST (detect_url K) (detect_payload s) = Some req →
  detect_text K W s st =
  match remote W (log st) req with
  | Reply status body => detect_response status body (sent st req)
  | No_reply msg => (Raise (ClientError msg), sent st req)
  end.
Proof.
  intros Hreq.
  destruct (ensure_then_send _ _ _ _ _ Hreq) as (st1 & Hrun & Hsend).
  unfold detect_text. run. rewrite Hrun. simpl.
  rewrite Hsend. now destruct (remote W (log st) req).
Qed.

Lemma translate_response_status (st : State) (s dest src src_code : string)
    (status : Z) (data : json) :
  status ≠ 200 →
  translate_response s dest src src_code status (Some data) st =
  if raise_exception (self st) then (Raise (Exception_status status data), st)
  else (Ok (degraded s dest src data), st).
Proof.
  intros Hstatus. apply Z.eqb_neq in Hstatus.
  unfold translate_response. run. rewrite Hstatus. simpl.
  now destruct (raise_exception (self st)).
Qed.

Lemma translate_response_err (st : State) (s dest src src_code : string)
    (m : gmap string json) (err : json) :
  m !! "err" = Some err → truthy err = true →
  translate_response s dest src src_code 200 (Some (JDict m)) st =
  if raise_exception (self st) then (Raise (Exception_err err), st)
  else (Ok (degraded s dest src (JDict m)), st).
Proof.
  intros Herr Htrue.
  unfold translate_response, dict_get. run. rewrite Herr. simpl. rewrite Htrue.
  now destruct (raise_exception (self st)).
Qed.

Lemma translate_response_success (st : State) (s dest src src_code : string)
    (m : gmap string json) :
  truthy (default JNull (m !! "err")) = false →
  translate_response s dest src src_code 200 (Some (JDict m)) st =
  (Ok {| src := reported_src src src_code m; dest := dest; origin := s;
         text := default (JStr "") (m !! "result");
         extra_data := JDict m |}, st).
Proof.
  intros Herr.
  unfold translate_response, dict_get. run. now rewrite Herr.
Qed.

End Calls.

(** ** [translate] on one text *)

Section Translate.
Context (K : constants) (W : world).

(** C1, as the code has it, for a call on a text whose answer decodes
    to [data].  Under a status other than 200 the call raises the
    exception that carries the status and [data] when [raise_exception]
    is set, and otherwise returns a [Translated] with the caller's
    arguments, the empty string as [text] and [data] as [extra_data].
    Under status 200 and a dict with a value under ['err'], a true
    value does the same, the exception carrying that value; a false
    value ([None], [False], [0], an empty string, list or dict) is a
    success under either policy: the call returns the text under
    ['result'] and raises nothing. *)
Theorem translate_failure_policy (st : State)
    (s dest_arg src_arg dest_code src_code : string) (req : request)
    (status : Z) (data : json) :
  _normalize_lang K dest_arg = Ok dest_code →
  _normalize_lang K src_arg = Ok src_code →
  request_of st POST (TRANSLATE_URL K) (translate_payload dest_code src_code s)
    = Some req →
  remote W (log st) req = Reply status (Some data) →
  (status ≠ 200 →
     fst (translate K W (Text s) dest_arg src_arg st) =
     if raise_exception (self st) then Raise (Exception_status status data)
     else Ok (One (degraded s dest_arg src_arg data))) ∧
  (status = 200 →
     ∀ m err, data = JDict m → m !! "err" = Some err →
       fst (translate K W (Text s) dest_arg src_arg st) =
       if truthy err then
         if raise_exception (self st) then Raise (Exception_err err)
         else Ok (One (degraded s dest_arg src_arg data))
       else
         Ok (One {| src := reported_src src_arg src_code m; dest := dest_arg;
                    origin := s; text := default (JStr "") (m !! "result");
                    extra_data := data |})).
Proof.
  intros Hdest Hsrc Hreq Hreply.
  assert (Hrun : fst (translate K W (Text s) dest_arg src_arg st) =
                 match fst (translate_response s dest_arg src_arg src_code
                              status (Some data) (sent st req)) with
                 | Ok t => Ok (One t)
                 | Raise e => Raise e
                 end).
  { simpl. unfold mbind, M_bind.
    rewrite (translate_text_run K W _ _ _ _ _ _ _ Hdest Hsrc Hreq), Hreply.
    now destruct (translate_response s dest_arg src_arg src_code status
                    (Some data) (sent st req)) as [[t|e] st1]. }
  rewrite Hrun. split.
  - intros Hstatus.
    rewrite (translate_response_status _ _ _ _ _ _ _ Hstatus).
    rewrite sent_raise_exception.
    now destruct (raise_exception (self st)).
  - intros -> m err -> Herr.
    destruct (truthy err) eqn:Htruthy.
    + rewrite (translate_response_err _ _ _ _ _ _ _ Herr Htruthy).
      rewrite sent_raise_exception.
      now destruct (raise_exception (self st)).
    + rewrite translate_response_success; [reflexivity|].
      now rewrite Herr.
Qed.

(** C3, as the code has it: a call answered with status 200 and a dict
    without ['err'] returns a [Translated] whose [text] is the value
    under ['result'] (the empty string without one).  When the source
    language normalized to ['auto'], [src] is the value under ['from']
    if that value is true, ['auto'] if there is none, and the caller's
    [src] if it is there but false; when it normalized to anything
    else, [src] is the caller's [src]. *)
Theorem translate_success (st : State)
    (s dest_arg src_arg dest_code src_code : string) (req : request)
    (m : gmap string json) :
  _normalize_lang K dest_arg = Ok dest_code →
  _normalize_lang K src_arg = Ok src_code →
  request_of st POST (TRANSLATE_URL K) (translate_payload dest_code src_code s)
    = Some req →
  remote W (log st) req = Reply 200 (Some (JDict m)) →
  m !! "err" = None →
  ∃ t, fst (translate K W (Text s) dest_arg src_arg st) = Ok (One t) ∧
    (∀ r, m !! "result" = Some r → text t = r) ∧
    (m !! "result" = None → text t = JStr "") ∧
    (src_code = "auto" →
       ∀ f, m !! "from" = Some f → truthy f = true → src t = f) ∧
    (src_code = "auto" → m !! "from" = None → src t = JStr "auto") ∧
    (src_code = "auto" →
       ∀ f, m !! "from" = Some f → truthy f = false → src t = JStr src_arg) ∧
    (src_code ≠ "auto" → src t = JStr src_arg).
Proof.
  intros Hdest Hsrc Hreq Hreply Herr.
  eexists. split.
  { simpl. unfold mbind, M_bind.
    rewrite (translate_text_run K W _ _ _ _ _ _ _ Hdest Hsrc Hreq), Hreply.
    rewrite translate_response_success by now rewrite Herr.
    reflexivity. }
  simpl. unfold reported_src.
  split; [now intros r ->|].
  split; [now intros ->|].
  split; [intros -> f -> Hf; simpl; now rewrite Hf|].
  split; [now intros -> ->|].
  split; [intros -> f -> Hf; simpl; now rewrite Hf|].
  intros Hauto. apply String.eqb_neq in Hauto. now rewrite Hauto.
Qed.

(** A call on a text with an unresolved language stops in
    [_normalize_lang]. *)
Lemma translate_text_unresolved (st : State) (s dest_arg src_arg : string) :
  unresolved K dest_arg ∨ unresolved K src_arg →
  ∃ code, translate_text K W s dest_arg src_arg st = (Raise (ValueError code), st) ∧
          (code = dest_arg ∨ code = src_arg).
Proof.
  intros Hun. unfold translate_text. run.
  destruct (_normalize_lang K dest_arg) as [dest_code|e] eqn:Hdest.
  - destruct Hun as [Hun|Hun].
    + rewrite (normalize_unresolved _ _ Hun) in Hdest. discriminate.
    + rewrite (normalize_unresolved _ _ Hun). eauto.
  - apply normalize_raises_iff in Hdest as [_ ->]. eauto.
Qed.

(** The list form hands the languages to the calls on its items: it
    normalizes nothing itself. *)
Lemma translate_empty_list (st : State) (dest_arg src_arg : string) :
  translate K W (TextList []) dest_arg src_arg st = (Ok (Many []), st).
Proof. reflexivity. Qed.

Lemma text_input_nested_ind (P : text_input → Prop) :
  (∀ s, P (Text s)) →
  (∀ items, Forall P items → P (TextList items)) →
  ∀ t, P t.
Proof.
  intros Htext Hlist. fix IH 1. intros [s|items].
  - apply Htext.
  - apply Hlist. induction items as [|item rest IHrest]; constructor.
    + apply IH.
    + exact IHrest.
Qed.

(** An input without any text sends nothing and changes nothing. *)
Lemma translate_without_text (t : text_input) (dest_arg src_arg : string) :
  has_text t = false →
  ∀ st, ∃ r, translate K W t dest_arg src_arg st = (Ok r, st).
Proof.
  induction t as [s|items IH] using text_input_nested_ind; [discriminate|].
  simpl. intros Hnone st.
  assert (Hloop : ∃ rs, for_each (λ item, translate K W item dest_arg src_arg) items st
                        = (Ok rs, st)).
  { induction IH as [|item rest Hitem _ IHrest]; simpl; [eauto|].
    simpl in Hnone. apply orb_false_iff in Hnone as [Hi Hr].
    destruct (Hitem Hi st) as [r Hrun]. destruct (IHrest Hr) as [rs Hrest].
    unfold mbind, M_bind. rewrite Hrun, Hrest. eauto. }
  destruct Hloop as [rs Hloop]. unfold mbind, M_bind. rewrite Hloop. eauto.
Qed.

(** An input with a text raises on its first text when a language is
    unresolved, before anything is sent. *)
Lemma translate_unresolved_any_input (t : text_input) (dest_arg src_arg : string) :
  unresolved K dest_arg ∨ unresolved K src_arg →
  has_text t = true →
  ∀ st, ∃ code, translate K W t dest_arg src_arg st = (Raise (ValueError code), st) ∧
                (code = dest_arg ∨ code = src_arg).
Proof.
  intros Hun.
  induction t as [s|items IH] using text_input_nested_ind; intros Hsome st.
  - destruct (translate_text_unresolved st s dest_arg src_arg Hun)
      as (code & Hrun & Hcode).
    exists code. split; [|exact Hcode].
    simpl. unfold mbind, M_bind. now rewrite Hrun.
  - simpl in *.
    assert (Hloop : ∃ code,
              for_each (λ item, translate K W item dest_arg src_arg) items st
              = (Raise (ValueError code), st) ∧ (code = dest_arg ∨ code = src_arg)).
    { induction IH as [|item rest Hitem _ IHrest]; simpl in *; [discriminate|].
      unfold mbind, M_bind.
      destruct (has_text item) eqn:Hi.
      - destruct (Hitem eq_refl st) as (code & Hrun & Hcode). rewrite Hrun. eauto.
      - destruct (translate_without_text item dest_arg src_arg Hi st) as [r Hrun].
        destruct (IHrest Hsome) as (code & Hrest & Hcode). rewrite Hrun, Hrest. eauto. }
    destruct Hloop as (code & Hloop & Hcode).
    unfold mbind, M_bind. rewrite Hloop. eauto.
Qed.

(** C7, as the code has it: whatever [raise_exception] says, a call
    whose [dest] or [src] matches nothing and whose input is a text, or
    a list that holds a text at some depth, raises [ValueError] on that
    language and leaves the state as it was: no session is looked at or
    built and no request is logged.  The languages are normalized in the
    call on a text only, so a call on a list that holds no text
    normalizes nothing and returns, the state as it was. *)
Theorem translate_unresolved_raises (st : State) (t : text_input)
    (dest_arg src_arg : string) :
  unresolved K dest_arg ∨ unresolved K src_arg →
  if has_text t
  then ∃ code, translate K W t dest_arg src_arg st = (Raise (ValueError code), st) ∧
               (code = dest_arg ∨ code = src_arg)
  else ∃ r, translate K W t dest_arg src_arg st = (Ok r, st).
Proof.
  intros Hun. destruct (has_text t) eqn:Htext.
  - now apply translate_unresolved_any_input.
  - now apply translate_without_text.
Qed.

(** Whatever [translate] returns for a text carries the caller's [dest]
    and the text itself. *)
Lemma translate_response_echo (st st1 : State) (s dest_arg src_arg src_code : string)
    (status : Z) (body : option json) (t : Translated) :
  translate_response s dest_arg src_arg src_code status body st = (Ok t, st1) →
  dest t = dest_arg ∧ origin t = s.
Proof.
  unfold translate_response, resp_json, dict_get. run.
  destruct body as [data|]; simpl; [|discriminate].
  destruct (negb (status =? 200)).
  - destruct (raise_exception (self st)); [discriminate|]. now intros [= <- _].
  - destruct data; simpl; try discriminate.
    destruct (truthy (default JNull (m !! "err"))).
    + destruct (raise_exception (self st)); [discriminate|]. now intros [= <- _].
    + now intros [= <- _].
Qed.

Lemma translate_dest_is_argument (st : State) (s dest_arg src_arg : string) (t : Translated) :
  fst (translate K W (Text s) dest_arg src_arg st) = Ok (One t) → dest t = dest_arg.
Proof.
  simpl. unfold mbind, M_bind.
  destruct (translate_text K W s dest_arg src_arg st) as [[t'|e] st1] eqn:Hrun;
    [|discriminate].
  simpl. intros [= ->].
  revert Hrun. unfold translate_text. run.
  destruct (_normalize_lang K dest_arg) as [dest_code|]; [|discriminate].
  destruct (_normalize_lang K src_arg) as [src_code|]; [|discriminate].
  destruct (_ensure_session st) as [[[]|] st2]; [|discriminate].
  destruct (send _ _ _ _ _ _ _ _) as [[[status body]|] st3]; [|discriminate].
  intros Hresp. now apply translate_response_echo in Hresp.
Qed.

End Translate.

(** ** [detect] on one text *)

Section Detect.
Context (K : constants) (W : world).

(** [detect_response] by cases; it never touches the state. *)
Lemma detect_response_cases (st : State) (status : Z) (body : option json) :
  detect_response status body st =
  (match body with
   | None => Raise JSONDecodeError
   | Some data =>
     if negb (status =? 200) then
       if raise_exception (self st) then Raise (Exception_status status data)
       else Ok unknown
     else
       match data with
       | JDict m =>
         let err := default JNull (m !! "err") in
         if truthy err then
           if raise_exception (self st) then Raise (Exception_err err)
           else Ok unknown
         else Ok {| lang := reported_lang m;
                    confidence := default JNull (m !! "score") |}
       | _ => Raise (AttributeError "get")
       end
   end, st).
Proof.
  unfold detect_response, resp_json, dict_get, reported_lang, unknown. run.
  destruct body as [data|]; simpl; [|reflexivity].
  destruct (negb (status =? 200)).
  - now destruct (raise_exception (self st)).
  - destruct data; simpl; try reflexivity.
    destruct (truthy (default JNull (m !! "err"))).
    + now destruct (raise_exception (self st)).
    + now destruct (truthy (default JNull (m !! "sourceLanguage"))).
Qed.

Lemma detect_run (st : State) (s : string) (req : request) :
  request_of st POST (detect_url K) (detect_payload s) = Some req →
  detect K W (Text s) st =
  match remote W (log st) req with
  | Reply status body =>
    (match fst (detect_response status body (sent st req)) with
     | Ok d => Ok (One d)
     | Raise e => Raise e
     end, sent st req)
  | No_reply msg => (Raise (ClientError msg), sent st req)
  end.
Proof.
  intros Hreq. simpl. unfold mbind, M_bind.
  rewrite (detect_text_run K W _ _ _ Hreq).
  destruct (remote W (log st) req) as [status body|msg]; [|reflexivity].
  rewrite detect_response_cases. simpl.
  now destruct (match body with Some _ => _ | None => _ end).
Qed.

(** C6, as the code has it.  Every call on a text sends one request:
    a POST to the translate URL with [?platform=dp] appended, carrying
    ['to'] = ['en_US'] and the text, and no ['from'].  An answer with a
    status other than 200, or with a dict whose ['err'] is true, makes
    the call raise when [raise_exception] is set and return
    [Detected(lang='unknown', confidence=None)] otherwise.  An answer
    with status 200 and a dict whose ['err'] is absent or false makes
    it return: [lang] is the value under ['sourceLanguage'] when that
    is true, else the value under ['from'], else ['unknown'];
    [confidence] is the value under ['score'], else [None]. *)
Theorem detect_contract (st : State) (s : string) :
  ∃ req,
    request_of st POST (TRANSLATE_URL K +:+ "?platform=dp")
      [("to", "en_US"); ("text", s)] = Some req ∧
    req_method req = POST ∧
    req_url req = TRANSLATE_URL K +:+ "?platform=dp" ∧
    req_data req = [("to", "en_US"); ("text", s)] ∧
    field "from" (req_data req) = None ∧
    log (snd (detect K W (Text s) st)) = (log st ++ [req])%list ∧
    (∀ status data,
       remote W (log st) req = Reply status (Some data) →
       status ≠ 200 ∨
         (∃ m err, data = JDict m ∧ m !! "err" = Some err ∧ truthy err = true) →
       if raise_exception (self st)
       then ∃ e, fst (detect K W (Text s) st) = Raise e ∧
                 is_remote_api_error e = true
       else fst (detect K W (Text s) st) = Ok (One unknown)) ∧
    (∀ m,
       remote W (log st) req = Reply 200 (Some (JDict m)) →
       truthy (default JNull (m !! "err")) = false →
       ∃ d, fst (detect K W (Text s) st) = Ok (One d) ∧
         (∀ l, m !! "sourceLanguage" = Some l → truthy l = true → lang d = l) ∧
         (truthy (default JNull (m !! "sourceLanguage")) = false →
            ∀ f, m !! "from" = Some f → lang d = f) ∧
         (truthy (default JNull (m !! "sourceLanguage")) = false →
            m !! "from" = None → lang d = JStr "unknown") ∧
         (∀ c, m !! "score" = Some c → confidence d = c) ∧
         (m !! "score" = None → confidence d = JNull)).
Proof.
  destruct (request_of_total st POST (detect_url K) (detect_payload s))
    as (req & Hreq & Hmethod & Hurl & Hdata & _).
  exists req. split; [exact Hreq|].
  split; [exact Hmethod|]. split; [exact Hurl|]. split; [exact Hdata|].
  split; [now rewrite Hdata|].
  rewrite (detect_run _ _ _ Hreq).
  split; [|split].
  - destruct (remote W (log st) req); simpl; unfold sent; reflexivity.
  - intros status data -> Hfail. simpl.
    rewrite detect_response_cases, sent_raise_exception. simpl.
    destruct (decide (status = 200)) as [->|Hstatus].
    + destruct Hfail as [Hne|(m & err & -> & Herr & Htrue)]; [congruence|].
      simpl. rewrite Herr. simpl. rewrite Htrue.
      destruct (raise_exception (self st)); [|reflexivity]. eauto.
    + apply Z.eqb_neq in Hstatus. rewrite Hstatus. simpl.
      destruct (raise_exception (self st)); [|reflexivity]. eauto.
  - intros m -> Herr. simpl.
    rewrite detect_response_cases. simpl. rewrite Herr. simpl.
    eexists. split; [reflexivity|]. simpl. unfold reported_lang.
    split; [intros l -> Hl; simpl; now rewrite Hl|].
    split; [intros -> f ->; reflexivity|].
    split; [intros -> ->; reflexivity|].
    split; [now intros c ->|now intros ->].
Qed.

(** C9, as the code has it: the [confidence] of a returned [Detected]
    is the value the answer carries under ['score'], handed on as it
    came, whatever it is.  An answer with status 200 and a dict whose
    ['err'] is absent or false and that has a ['score'] makes the call
    return with that value as [confidence]; a [confidence] other than
    [None] is always the ['score'] of such an answer; and [confidence]
    is [None] when the call absorbed a failure or the answer has no
    ['score']. *)
Theorem detect_confidence_is_score (st : State) (s : string) :
  ∃ req,
    request_of st POST (detect_url K) (detect_payload s) = Some req ∧
    (∀ m c,
       remote W (log st) req = Reply 200 (Some (JDict m)) →
       truthy (default JNull (m !! "err")) = false →
       m !! "score" = Some c →
       ∃ d, fst (detect K W (Text s) st) = Ok (One d) ∧ confidence d = c) ∧
    (∀ d,
       fst (detect K W (Text s) st) = Ok (One d) →
       confidence d ≠ JNull →
       ∃ m, remote W (log st) req = Reply 200 (Some (JDict m)) ∧
            truthy (default JNull (m !! "err")) = false ∧
            m !! "score" = Some (confidence d)) ∧
    (∀ d status data,
       fst (detect K W (Text s) st) = Ok (One d) →
       remote W (log st) req = Reply status (Some data) →
       status ≠ 200 ∨
         (∃ m, data = JDict m ∧
               (truthy (default JNull (m !! "err")) = true ∨ m !! "score" = None)) →
       confidence d = JNull).
Proof.
  destruct (request_of_total st POST (detect_url K) (detect_payload s))
    as (req & Hreq & _).
  exists req. split; [exact Hreq|].
  rewrite (detect_run _ _ _ Hreq).
  split; [|split].
  - intros m c -> Herr Hscore. simpl.
    rewrite detect_response_cases. simpl. rewrite Herr, Hscore. simpl.
    eexists. split; reflexivity.
  - intros d.
    destruct (remote W (log st) req) as [status body|msg]; [|discriminate].
    simpl. rewrite detect_response_cases. simpl.
    destruct body as [data|]; [|discriminate].
    destruct (status =? 200) eqn:Hstatus; simpl.
    + apply Z.eqb_eq in Hstatus. subst status.
      destruct data; try discriminate.
      destruct (truthy (default JNull (m !! "err"))) eqn:Herr.
      * destruct (raise_exception _); [discriminate|].
        intros Heq Hsome. inversion Heq. subst d. now contradict Hsome.
      * intros Heq Hsome. inversion Heq. subst d. simpl in *.
        exists m. split; [reflexivity|]. split; [exact Herr|].
        destruct (m !! "score") as [c|]; [reflexivity|now contradict Hsome].
    + destruct (raise_exception _); [discriminate|].
      intros Heq Hsome. inversion Heq. subst d. now contradict Hsome.
  - intros d status data Hrun Hreply Hfail. rewrite Hreply in Hrun.
    simpl in Hrun. rewrite detect_response_cases in Hrun. simpl in Hrun.
    destruct (status =? 200) eqn:Hstatus; simpl in Hrun.
    + apply Z.eqb_eq in Hstatus. subst status.
      destruct Hfail as [Hne|(m & -> & Hnone)]; [congruence|].
      destruct (truthy (default JNull (m !! "err"))) eqn:Herr.
      * destruct (raise_exception _); [discriminate|].
        inversion Hrun. reflexivity.
      * destruct Hnone as [Habs|Hscore]; [discriminate|].
        inversion Hrun. simpl. now rewrite Hscore.
    + destruct (raise_exception _); [discriminate|].
      inversion Hrun. reflexivity.
Qed.

End Detect.

(** ** The list form *)

Section ForEach.
Context {A B : Type} (f : A → M B).

Lemma for_each_chain (items : list A) (st : State) (ys : list B) (st' : State) :
  for_each f items st = (Ok ys, st') ↔ chain f items st ys st'.
Proof.
  revert st ys. induction items as [|item rest IH]; intros st ys; simpl.
  - split.
    + intros [= <- <-]. constructor.
    + inversion 1. reflexivity.
  - unfold mbind, M_bind, mret, M_ret. split.
    + destruct (f item st) as [[y|e] st1] eqn:Hitem; [|discriminate].
      destruct (for_each f rest st1) as [[ys'|e] st2] eqn:Hrest; [|discriminate].
      intros [= <- <-]. econstructor; [exact Hitem|]. now apply IH.
    + inversion 1 as [|? ? y ys' ? st1 ? Hitem Hrest]; subst.
      rewrite Hitem. apply IH in Hrest. now rewrite Hrest.
Qed.

Lemma chain_length (items : list A) (st : State) (ys : list B) (st' : State) :
  chain f items st ys st' → length ys = length items.
Proof. induction 1; simpl; congruence. Qed.

(** The [i]-th result is what the call on the [i]-th item returned, in
    the state the calls on the items before it led to. *)
Lemma chain_lookup (items : list A) (st : State) (ys : list B) (st' : State)
    (i : nat) (item : A) :
  chain f items st ys st' → items !! i = Some item →
  ∃ y sti sti', ys !! i = Some y ∧
                chain f (take i items) st (take i ys) sti ∧
                f item sti = (Ok y, sti').
Proof.
  intros Hchain. revert i. induction Hchain as [st|x rest y ys st st1 st2 Hx _ IH];
    intros i Hi.
  - discriminate.
  - destruct i as [|i]; simpl in *.
    + injection Hi as ->. exists y, st, st1. repeat split; [constructor|exact Hx].
    + destruct (IH i Hi) as (y' & sti & sti' & Hy & Hpre & Hcall).
      exists y', sti, sti'. repeat split; [exact Hy| |exact Hcall].
      econstructor; [exact Hx|exact Hpre].
Qed.

(** The loop raises what the first failing call raises, where it
    raises it. *)
Lemma for_each_raises (items : list A) (st : State) (e : exception) (st' : State) :
  for_each f items st = (Raise e, st') ↔
  ∃ before item after ys st1,
    items = (before ++ item :: after)%list ∧ chain f before st ys st1 ∧
    f item st1 = (Raise e, st').
Proof.
  revert st. induction items as [|x rest IH]; intros st; simpl.
  - split; [discriminate|].
    intros (before & item & after & _ & _ & Habs & _). now destruct before.
  - unfold mbind, M_bind, mret, M_ret. split.
    + destruct (f x st) as [[y|e1] st1] eqn:Hx.
      * destruct (for_each f rest st1) as [[ys|e2] st2] eqn:Hrest; [discriminate|].
        intros [= <- <-]. apply IH in Hrest
          as (before & item & after & ys & st3 & -> & Hpre & Hitem).
        exists (x :: before), item, after, (y :: ys), st3.
        repeat split; [|exact Hitem]. econstructor; [exact Hx|exact Hpre].
      * intros [= <- <-]. exists [], x, rest, [], st. repeat split; [constructor|exact Hx].
    + intros (before & item & after & ys & st1 & Hitems & Hpre & Hitem).
      destruct before as [|x' before]; simpl in Hitems; injection Hitems as -> ->.
      * inversion Hpre; subst. now rewrite Hitem.
      * inversion Hpre as [|? ? y ys' ? st2 ? Hx Hrest]; subst. rewrite Hx.
        assert (Hloop : for_each f (before ++ item :: after) st2 = (Raise e, st')).
        { apply IH. eauto 10. }
        now rewrite Hloop.
Qed.

End ForEach.

Section Lists.
Context (K : constants) (W : world).

Lemma translate_list_unfold (items : list text_input) (dest_arg src_arg : string)
    (st : State) :
  translate K W (TextList items) dest_arg src_arg st =
  match for_each (λ item, translate K W item dest_arg src_arg) items st with
  | (Ok rs, st') => (Ok (Many rs), st')
  | (Raise e, st') => (Raise e, st')
  end.
Proof. reflexivity. Qed.

Lemma detect_list_unfold (items : list text_input) (st : State) :
  detect K W (TextList items) st =
  match for_each (detect K W) items st with
  | (Ok rs, st') => (Ok (Many rs), st')
  | (Raise e, st') => (Raise e, st')
  end.
Proof. reflexivity. Qed.

(** C4: the list form of [translate], and of [detect], returns a list
    exactly when the calls on the items, made one after the other in
    the order of the list, each starting in the state the one before
    left, all return; the list then has the length of the input and
    its [i]-th element is what the call on the [i]-th item returned. *)
Theorem list_form_is_sequential (items : list text_input)
    (dest_arg src_arg : string) (st : State) :
  (∀ rs st',
     translate K W (TextList items) dest_arg src_arg st = (Ok (Many rs), st') ↔
     chain (λ item, translate K W item dest_arg src_arg) items st rs st') ∧
  (∀ rs st',
     detect K W (TextList items) st = (Ok (Many rs), st') ↔
     chain (detect K W) items st rs st') ∧
  (∀ r st',
     translate K W (TextList items) dest_arg src_arg st = (Ok r, st') →
     ∃ rs, r = Many rs ∧ length rs = length items ∧
       ∀ i item, items !! i = Some item →
         ∃ y sti sti', rs !! i = Some y ∧
           translate K W item dest_arg src_arg sti = (Ok y, sti')) ∧
  (∀ r st',
     detect K W (TextList items) st = (Ok r, st') →
     ∃ rs, r = Many rs ∧ length rs = length items ∧
       ∀ i item, items !! i = Some item →
         ∃ y sti sti', rs !! i = Some y ∧ detect K W item sti = (Ok y, sti')).
Proof.
  assert (Htr : ∀ rs st',
    translate K W (TextList items) dest_arg src_arg st = (Ok (Many rs), st') ↔
    chain (λ item, translate K W item dest_arg src_arg) items st rs st').
  { intros rs st'. rewrite translate_list_unfold, <- for_each_chain.
    destruct (for_each _ items st) as [[rs'|e] st1].
    - split; now intros [= -> ->].
    - split; discriminate. }
  assert (Hde : ∀ rs st',
    detect K W (TextList items) st = (Ok (Many rs), st') ↔
    chain (detect K W) items st rs st').
  { intros rs st'. rewrite detect_list_unfold, <- for_each_chain.
    destruct (for_each _ items st) as [[rs'|e] st1].
    - split; now intros [= -> ->].
    - split; discriminate. }
  split; [exact Htr|]. split; [exact Hde|]. split.
  - intros r st' Hrun.
    assert (∃ rs, r = Many rs) as [rs ->].
    { rewrite translate_list_unfold in Hrun.
      destruct (for_each _ items st) as [[rs'|e] st1]; [|discriminate].
      injection Hrun as <- _. eauto. }
    apply Htr in Hrun. exists rs. split; [reflexivity|].
    split; [exact (chain_length _ _ _ _ _ Hrun)|].
    intros i item Hi.
    destruct (chain_lookup _ _ _ _ _ _ _ Hrun Hi) as (y & sti & sti' & Hy & _ & Hcall).
    eauto.
  - intros r st' Hrun.
    assert (∃ rs, r = Many rs) as [rs ->].
    { rewrite detect_list_unfold in Hrun.
      destruct (for_each _ items st) as [[rs'|e] st1]; [|discriminate].
      injection Hrun as <- _. eauto. }
    apply Hde in Hrun. exists rs. split; [reflexivity|].
    split; [exact (chain_length _ _ _ _ _ Hrun)|].
    intros i item Hi.
    destruct (chain_lookup _ _ _ _ _ _ _ Hrun Hi) as (y & sti & sti' & Hy & _ & Hcall).
    eauto.
Qed.

End Lists.

(** ** Closing and coming back *)

Section Lifecycle.
Context (K : constants) (W : world).

Lemma translate_response_state (st : State) (s dest_arg src_arg src_code : string)
    (status : Z) (body : option json) :
  snd (translate_response s dest_arg src_arg src_code status body st) = st.
Proof.
  unfold translate_response, resp_json, dict_get. run.
  destruct body as [data|]; simpl; [|reflexivity].
  destruct (negb (status =? 200)).
  - now destruct (raise_exception (self st)).
  - destruct data; simpl; try reflexivity.
    destruct (truthy (default JNull (m !! "err"))); [|reflexivity].
    now destruct (raise_exception (self st)).
Qed.

(** A call of [translate] on a text with resolvable languages sends
    exactly one request. *)
Lemma translate_sends_one (st : State) (s dest_arg src_arg dest_code src_code : string)
    (req : request) :
  _normalize_lang K dest_arg = Ok dest_code →
  _normalize_lang K src_arg = Ok src_code →
  request_of st POST (TRANSLATE_URL K) (translate_payload dest_code src_code s)
    = Some req →
  log (snd (translate K W (Text s) dest_arg src_arg st)) = (log st ++ [req])%list.
Proof.
  intros Hdest Hsrc Hreq. simpl. unfold mbind, M_bind.
  rewrite (translate_text_run K W _ _ _ _ _ _ _ Hdest Hsrc Hreq).
  destruct (remote W (log st) req) as [status body|msg]; [|reflexivity].
  pose proof (translate_response_state (sent st req) s dest_arg src_arg src_code
                status body) as Hstate.
  destruct (translate_response _ _ _ _ _ _ _) as [[t|e] st1];
    simpl in Hstate; subst st1; reflexivity.
Qed.

(** Any number of [close] calls in a row return, and leave what one
    call leaves. *)
Lemma repeat_close (st : State) (n : nat) :
  ∃ h, repeat_call (close W) (S n) st =
       (Ok tt, {| self := closed_client (self st); heap := h; log := log st |}).
Proof.
  revert st. induction n as [|n IH]; intros st.
  - destruct (close_total W st) as [h Hclose]. exists h.
    simpl. unfold mbind, M_bind. now rewrite Hclose.
  - destruct (close_total W st) as [h Hclose].
    destruct (IH {| self := closed_client (self st); heap := h; log := log st |})
      as [h' Hrest].
    exists h'. change (repeat_call (close W) (S (S n)) st)
      with (mbind (λ _, repeat_call (close W) (S n)) (close W) st).
    unfold mbind, M_bind. rewrite Hclose. exact Hrest.
Qed.

Lemma closed_client_dead (me : Translator) (h : Heap) (l : list request) :
  current {| self := closed_client me; heap := h; log := l |} = None.
Proof. reflexivity. Qed.

(** C5: any number of [close] calls in a row, two among them, return
    without raising and leave [_session] and [connector] at [None];
    [_ensure_session] then returns too, with a session object that did
    not exist before and is open, so that a following [translate] sends
    its request and, answered with a success, returns. *)
Theorem close_is_idempotent (st : State) (n : nat) :
  ∃ st1,
    repeat_call (close W) (S n) st = (Ok tt, st1) ∧
    _session (self st1) = None ∧ connector (self st1) = None ∧
    log st1 = log st ∧
    (∃ c s,
       _ensure_session st1 = (Ok tt, recreated st1 c s) ∧
       sessions (heap st1) !! s = None ∧ connectors (heap st1) !! c = None ∧
       _session (self (recreated st1 c s)) = Some s ∧
       current (recreated st1 c s)
         = Some (plain_session (self st1) c, plain_connector (self st1))) ∧
    (∀ s dest_arg src_arg dest_code src_code,
       _normalize_lang K dest_arg = Ok dest_code →
       _normalize_lang K src_arg = Ok src_code →
       ∃ req,
         request_of st1 POST (TRANSLATE_URL K)
           (translate_payload dest_code src_code s) = Some req ∧
         log (snd (translate K W (Text s) dest_arg src_arg st1))
           = (log st1 ++ [req])%list ∧
         ∀ m, remote W (log st1) req = Reply 200 (Some (JDict m)) →
              m !! "err" = None →
              ∃ t, fst (translate K W (Text s) dest_arg src_arg st1) = Ok (One t)).
Proof.
  destruct (repeat_close st n) as [h Hclose].
  eexists. split; [exact Hclose|]. simpl.
  split; [reflexivity|]. split; [reflexivity|]. split; [reflexivity|].
  split.
  - destruct (ensure_recreates _ (closed_client_dead (self st) h (log st)))
      as (c & s & Hrun & Hc & Hs).
    exists c, s. split; [exact Hrun|]. split; [exact Hs|]. split; [exact Hc|].
    split; [reflexivity|]. apply current_recreated.
  - intros s dest_arg src_arg dest_code src_code Hdest Hsrc.
    destruct (request_of_total
                {| self := closed_client (self st); heap := h; log := log st |}
                POST (TRANSLATE_URL K) (translate_payload dest_code src_code s))
      as (req & Hreq & _).
    exists req. split; [exact Hreq|].
    split; [exact (translate_sends_one _ _ _ _ _ _ _ Hdest Hsrc Hreq)|].
    intros m Hreply Herr. simpl. unfold mbind, M_bind.
    rewrite (translate_text_run K W _ _ _ _ _ _ _ Hdest Hsrc Hreq).
    cbn [log]. rewrite Hreply.
    rewrite translate_response_success by now rewrite Herr.
    eauto.
Qed.

End Lifecycle.

(** ** Proxies and recreated sessions *)

Section Proxies.
Context (W : world).

Lemma construct_result (token : string) (raise_exc : bool)
    (timeout_arg : option ClientTimeout) (proxy_arg : option string)
    (proxy_auth_arg : option (string * string)) (limit : Z) :
  let st0 := construct token raise_exc timeout_arg proxy_arg proxy_auth_arg limit in
  via st0 = Some (wanted_connector proxy_arg limit) ∧
  proxy (self st0) = wanted_proxy proxy_arg ∧
  proxy_auth (self st0) = wanted_proxy_auth proxy_arg proxy_auth_arg ∧
  _use_proxy_connector (self st0) = wanted_flag proxy_arg ∧
  connector_limit (self st0) = limit.
Proof.
  unfold construct, __init__, via, current, open_session, wanted_connector,
    wanted_proxy, wanted_proxy_auth, wanted_flag.
  destruct proxy_arg as [p|]; [destruct (is_socks p)|]; simpl;
    rewrite !lookup_insert_eq; simpl; rewrite ?lookup_insert_eq; simpl; auto.
Qed.

Lemma change_proxy_result (st st0 : State) (proxy_arg : option string)
    (proxy_auth_arg : option (string * string)) :
  change_proxy W proxy_arg proxy_auth_arg st = (Ok tt, st0) →
  via st0 = Some (wanted_connector proxy_arg (connector_limit (self st))) ∧
  proxy (self st0) = wanted_proxy proxy_arg ∧
  proxy_auth (self st0) = wanted_proxy_auth proxy_arg proxy_auth_arg ∧
  _use_proxy_connector (self st0) = wanted_flag proxy_arg ∧
  connector_limit (self st0) = connector_limit (self st).
Proof.
  unfold change_proxy. run.
  match goal with
  | |- (let (_, _) := ?X in _) = _ → _ => destruct X as [r1 st1] eqn:Hfirst
  end.
  assert (Hself1 : self st1 = self st).
  { revert Hfirst. destruct (_session (self st)) as [s|];
      [destruct (negb (session_is_closed (heap st) s))|];
      try (now intros [= _ <-]).
    simpl. destruct (session_close W s (heap st)) as [r h]. simpl. intros Heq. inversion Heq. reflexivity. }
  destruct r1 as [[]|e]; [|discriminate].
  match goal with
  | |- (let (_, _) := ?X in _) = _ → _ => destruct X as [r2 st2] eqn:Hsecond
  end.
  assert (Hself2 : self st2 = with__session None (self st1)).
  { revert Hsecond. simpl. destruct (connector (self st1)) as [c|];
      [destruct (negb (connector_is_closed (heap st1) c))|];
      try (now intros [= _ <-]).
    simpl. destruct (connector_close W c (heap st1)) as [r h]. simpl. intros Heq. inversion Heq. reflexivity. }
  destruct r2 as [[]|e]; [|discriminate].
  unfold via, current, open_session, wanted_connector, wanted_proxy,
    wanted_proxy_auth, wanted_flag.
  proxy_cases W proxy_arg proxy_auth_arg; simpl; try discriminate;
    intros [= <-]; simpl; rewrite !lookup_insert_eq; simpl;
    rewrite ?lookup_insert_eq; simpl; rewrite Hself2, Hself1; auto.
Qed.

(** After any number of [close] calls, [_ensure_session] builds the
    session anew. *)
Lemma recreate_after_close (st : State) (n : nat) :
  ∃ st1 c s,
    repeat_call (close W) (S n) st = (Ok tt, st1) ∧
    self st1 = closed_client (self st) ∧ log st1 = log st ∧
    _ensure_session st1 = (Ok tt, recreated st1 c s).
Proof.
  destruct (repeat_close W st n) as [h Hclose].
  destruct (ensure_recreates _ (closed_client_dead (self st) h (log st)))
    as (c & s & Hrun & _ & _).
  eexists _, c, s. split; [exact Hclose|]. auto.
Qed.

Lemma via_recreated (st : State) (c s : loc) :
  via (recreated st c s) = Some (TCPConnector (connector_limit (self st))).
Proof. unfold via. now rewrite current_recreated. Qed.

(** C10: when [_ensure_session] finds no open session it builds one on
    a plain TCP connector with the connection limit, the timeout and
    the authorization header of the client, and leaves the proxy
    attributes as they are.  So a client built with, or changed to, a
    socks4 or socks5 proxy sends through the tunnelling connector until
    it is closed, and through a plain TCP connector, with no proxy at
    all, once the session is built anew, while [_use_proxy_connector]
    still says otherwise; a client built with, or changed to, any other
    proxy keeps handing that proxy and its credentials to each
    request. *)
Theorem recreated_session_is_plain_tcp :
  (∀ st, current st = None →
     ∃ c s o k,
       _ensure_session st = (Ok tt, recreated st c s) ∧
       current (recreated st c s) = Some (o, k) ∧
       kind k = TCPConnector (connector_limit (self st)) ∧
       conn_closed k = false ∧
       sess_timeout o = timeout (self st) ∧
       sess_headers o = [("Authorization", _token (self st))] ∧
       proxy (self (recreated st c s)) = proxy (self st) ∧
       proxy_auth (self (recreated st c s)) = proxy_auth (self st) ∧
       _proxy_url (self (recreated st c s)) = _proxy_url (self st) ∧
       _use_proxy_connector (self (recreated st c s))
         = _use_proxy_connector (self st)) ∧
  (∀ st0 url proxy_auth_arg,
     is_socks url = true →
     (∃ token raise_exc timeout_arg limit,
        st0 = construct token raise_exc timeout_arg (Some url) proxy_auth_arg limit) ∨
     (∃ st, change_proxy W (Some url) proxy_auth_arg st = (Ok tt, st0)) →
     via st0 = Some (ProxyConnector url) ∧
     ∀ n, ∃ st1 st2,
       repeat_call (close W) (S n) st0 = (Ok tt, st1) ∧
       _ensure_session st1 = (Ok tt, st2) ∧
       via st2 = Some (TCPConnector (connector_limit (self st0))) ∧
       proxy (self st2) = None ∧
       _use_proxy_connector (self st2) = true) ∧
  (∀ st0 url proxy_auth_arg,
     is_socks url = false →
     (∃ token raise_exc timeout_arg limit,
        st0 = construct token raise_exc timeout_arg (Some url) proxy_auth_arg limit) ∨
     (∃ st, change_proxy W (Some url) proxy_auth_arg st = (Ok tt, st0)) →
     proxy (self st0) = Some url ∧
     ∀ n, ∃ st1 st2,
       repeat_call (close W) (S n) st0 = (Ok tt, st1) ∧
       _ensure_session st1 = (Ok tt, st2) ∧
       via st2 = Some (TCPConnector (connector_limit (self st0))) ∧
       proxy (self st2) = Some url ∧
       proxy_auth (self st2) = basic_auth proxy_auth_arg ∧
       ∀ method url' data req,
         request_of st1 method url' data = Some req →
         req_proxy req = Some url ∧
         req_proxy_auth req = basic_auth proxy_auth_arg).
Proof.
  split; [|split].
  - intros st Hdead.
    destruct (ensure_recreates _ Hdead) as (c & s & Hrun & _ & _).
    exists c, s, (plain_session (self st) c), (plain_connector (self st)).
    split; [exact Hrun|]. split; [apply current_recreated|]. repeat split.
  - intros st0 url proxy_auth_arg Hsocks Horigin.
    assert (Hst0 : via st0 = Some (ProxyConnector url) ∧
                   proxy (self st0) = None ∧
                   _use_proxy_connector (self st0) = true).
    { destruct Horigin as [(token & raise_exc & timeout_arg & limit & ->)|[st Hchange]].
      - destruct (construct_result token raise_exc timeout_arg (Some url)
                    proxy_auth_arg limit) as (Hvia & Hproxy & _ & Hflag & _).
        simpl in *. rewrite Hsocks in *. auto.
      - destruct (change_proxy_result _ _ _ _ Hchange)
          as (Hvia & Hproxy & _ & Hflag & _).
        simpl in *. rewrite Hsocks in *. auto. }
    destruct Hst0 as (Hvia & Hproxy & Hflag). split; [exact Hvia|].
    intros n.
    destruct (recreate_after_close st0 n) as (st1 & c & s & Hclose & Hself & _ & Hrun).
    exists st1, (recreated st1 c s). split; [exact Hclose|]. split; [exact Hrun|].
    rewrite via_recreated. simpl. rewrite Hself. simpl. auto.
  - intros st0 url proxy_auth_arg Hsocks Horigin.
    assert (Hst0 : proxy (self st0) = Some url ∧
                   proxy_auth (self st0) = basic_auth proxy_auth_arg).
    { destruct Horigin as [(token & raise_exc & timeout_arg & limit & ->)|[st Hchange]].
      - destruct (construct_result token raise_exc timeout_arg (Some url)
                    proxy_auth_arg limit) as (_ & Hproxy & Hauth & _).
        simpl in *. rewrite Hsocks in *. auto.
      - destruct (change_proxy_result _ _ _ _ Hchange) as (_ & Hproxy & Hauth & _).
        simpl in *. rewrite Hsocks in *. auto. }
    destruct Hst0 as (Hproxy & Hauth). split; [exact Hproxy|].
    intros n.
    destruct (recreate_after_close st0 n) as (st1 & c & s & Hclose & Hself & _ & Hrun).
    exists st1, (recreated st1 c s). split; [exact Hclose|]. split; [exact Hrun|].
    rewrite via_recreated. simpl. rewrite Hself. simpl.
    split; [reflexivity|]. split; [exact Hproxy|]. split; [exact Hauth|].
    intros method url' data req.
    destruct (request_of_total st1 method url' data)
      as (req' & -> & _ & _ & _ & Hp & Hpa).
    intros [= <-]. rewrite Hp, Hpa, Hself. simpl. auto.
Qed.

End Proxies.

(** * The properties at work *)

(** ** The normalizer *)

Lemma normalize_resolution_order_witness :
  _normalize_lang two_languages "auto" = Ok "auto" ∧
  _normalize_lang two_languages "fr_FR" = Ok "fr_FR" ∧
  _normalize_lang two_languages "fr" = Ok "fr_FR" ∧
  _normalize_lang two_languages "French" = Ok "fr_FR" ∧
  _normalize_lang two_languages "eNGLISH" = Ok "en_US".
Proof.
  destruct (normalize_resolution_order two_languages)
    as (Hauto & Hfull & Halpha & Hname & Hcase).
  split; [exact Hauto|].
  split; [apply Hfull; eexists; reflexivity|].
  split; [apply Halpha; [reflexivity|discriminate|reflexivity]|].
  split; [apply Hname; [reflexivity|discriminate|reflexivity|reflexivity]|].
  apply (Hcase (λ s _, eq_refl) "eNGLISH" "english");
    [reflexivity|reflexivity|reflexivity|reflexivity|discriminate
    |reflexivity|reflexivity].
Defined.

Example normalize_garbage :
  _normalize_lang two_languages "klingon" = Raise (ValueError "klingon").
Proof. reflexivity. Qed.

(** ** Failures of the remote side *)

Lemma translate_failure_policy_witness :
  fst (translate two_languages (answering (Reply 500 (Some boom)))
         (Text "Hello") "fr" "auto" (fresh_client false))
  = Ok (One (degraded "Hello" "fr" "auto" boom)) ∧
  fst (translate two_languages (answering (Reply 200 (Some boom)))
         (Text "Hello") "fr" "auto" (fresh_client true))
  = Raise (Exception_err (JStr "boom")).
Proof.
  assert (Hstatus : 500 ≠ 200) by discriminate.
  split.
  - exact (proj1 (translate_failure_policy two_languages
                    (answering (Reply 500 (Some boom)))
                    (fresh_client false) "Hello" "fr" "auto" "fr_FR" "auto"
                    hello_request 500 boom eq_refl eq_refl eq_refl eq_refl)
             Hstatus).
  - exact (proj2 (translate_failure_policy two_languages
                    (answering (Reply 200 (Some boom)))
                    (fresh_client true) "Hello" "fr" "auto" "fr_FR" "auto"
                    hello_request 200 boom eq_refl eq_refl eq_refl eq_refl)
             eq_refl _ (JStr "boom") eq_refl eq_refl).
Defined.

Example translate_raising_mode :
  fst (translate two_languages (answering (Reply 500 (Some boom)))
         (Text "Hello") "fr" "auto" (fresh_client true))
  = Raise (Exception_status 500 boom).
Proof. reflexivity. Qed.

(** C1 as it is worded fails: a body that carries ['err'] with the value
    [None] under status 200 is a success.  In the non-raising mode the
    call returns the translated text, not the empty string; in the
    raising mode it returns as well and does not raise. *)
Lemma translate_err_field_counterexample :
  (∃ m err, bonjour_err_null = JDict m ∧ m !! "err" = Some err) ∧
  fst (translate two_languages (answering (Reply 200 (Some bonjour_err_null)))
         (Text "Hello") "fr" "auto" (fresh_client false))
  = Ok (One {| src := JStr "auto"; dest := "fr"; origin := "Hello";
               text := JStr "Bonjour"; extra_data := bonjour_err_null |}) ∧
  fst (translate two_languages (answering (Reply 200 (Some bonjour_err_null)))
         (Text "Hello") "fr" "auto" (fresh_client false))
  ≠ Ok (One (degraded "Hello" "fr" "auto" bonjour_err_null)) ∧
  fst (translate two_languages (answering (Reply 200 (Some bonjour_err_null)))
         (Text "Hello") "fr" "auto" (fresh_client true))
  = Ok (One {| src := JStr "auto"; dest := "fr"; origin := "Hello";
               text := JStr "Bonjour"; extra_data := bonjour_err_null |}).
Proof.
  split; [eexists _, JNull; split; reflexivity|].
  split; [reflexivity|]. split; [|reflexivity].
  intros Heq. vm_compute in Heq. discriminate Heq.
Qed.

(** ** Successful answers *)

Lemma translate_success_witness :
  ∃ t, fst (translate two_languages (answering (Reply 200 (Some bonjour)))
              (Text "Hello") "fr" "auto" (fresh_client false)) = Ok (One t) ∧
       text t = JStr "Bonjour" ∧ src t = JStr "en_US".
Proof.
  destruct (translate_success two_languages (answering (Reply 200 (Some bonjour)))
              (fresh_client false) "Hello" "fr" "auto" "fr_FR" "auto" hello_request
              _ eq_refl eq_refl eq_refl eq_refl eq_refl)
    as (t & Hrun & Htext & _ & Hfrom & _).
  exists t. split; [exact Hrun|].
  split; [apply Htext; reflexivity|].
  apply (Hfrom eq_refl); reflexivity.
Defined.

(** C3 as it is worded fails: with an empty or a null ['from'] in the
    answer, a call with [src='auto'] keeps ['auto'] and does not take the
    value of the field. *)
Lemma translate_from_field_counterexample :
  _normalize_lang two_languages "auto" = Ok "auto" ∧
  fst (translate two_languages (answering (Reply 200 (Some bonjour_from_empty)))
         (Text "Hello") "fr" "auto" (fresh_client false))
  = Ok (One {| src := JStr "auto"; dest := "fr"; origin := "Hello";
               text := JStr "Bonjour"; extra_data := bonjour_from_empty |}) ∧
  JStr "auto" ≠ JStr "" ∧
  fst (translate two_languages (answering (Reply 200 (Some bonjour_from_null)))
         (Text "Hello") "fr" "auto" (fresh_client false))
  = Ok (One {| src := JStr "auto"; dest := "fr"; origin := "Hello";
               text := JStr "Bonjour"; extra_data := bonjour_from_null |}) ∧
  JStr "auto" ≠ JNull.
Proof.
  split; [reflexivity|]. split; [reflexivity|]. split; [discriminate|].
  split; [reflexivity|discriminate].
Qed.

(** C8 fails on the code: [dest] of the result is the caller's string.
    Called with the alpha-1 code ['fr'], which is no full code and which
    the request carries normalized as ['fr_FR'], the call returns a
    [Translated] whose [dest] is ['fr']. *)
Lemma translate_dest_keeps_alias :
  LANGUAGES two_languages !! "fr" = None ∧
  _normalize_lang two_languages "fr" = Ok "fr_FR" ∧
  log (snd (translate two_languages (answering (Reply 200 (Some bonjour)))
              (Text "Hello") "fr" "auto" (fresh_client false)))
  = [hello_request] ∧
  fst (translate two_languages (answering (Reply 200 (Some bonjour)))
         (Text "Hello") "fr" "auto" (fresh_client false))
  = Ok (One {| src := JStr "en_US"; dest := "fr"; origin := "Hello";
               text := JStr "Bonjour"; extra_data := bonjour |}) ∧
  fst (translate two_languages (answering (Reply 500 (Some boom)))
         (Text "Hello") "french" "auto" (fresh_client false))
  = Ok (One {| src := JStr "auto"; dest := "french"; origin := "Hello";
               text := JStr ""; extra_data := boom |}).
Proof. repeat split; reflexivity. Qed.

(** ** Unresolved languages *)

Lemma translate_unresolved_raises_witness :
  ∃ code,
    translate two_languages (answering (Reply 200 (Some bonjour)))
      (TextList [TextList []; Text "Hello"]) "klingon" "auto" (fresh_client false)
    = (Raise (ValueError code), fresh_client false) ∧
    (code = "klingon" ∨ code = "auto").
Proof.
  apply (translate_unresolved_raises two_languages (answering (Reply 200 (Some bonjour)))
           (fresh_client false) (TextList [TextList []; Text "Hello"])).
  left. repeat split; [discriminate|reflexivity..].
Defined.

(** C7 as it is worded fails: a call on the empty list with a [dest]
    that matches nothing raises nothing and returns the empty list,
    under either policy. *)
Lemma translate_unresolved_list_counterexample :
  unresolved two_languages "klingon" ∧
  translate two_languages (answering (Reply 200 (Some bonjour)))
    (TextList []) "klingon" "auto" (fresh_client true)
  = (Ok (Many []), fresh_client true) ∧
  translate two_languages (answering (Reply 200 (Some bonjour)))
    (TextList []) "klingon" "auto" (fresh_client false)
  = (Ok (Many []), fresh_client false).
Proof.
  split; [repeat split; [discriminate|reflexivity..]|].
  split; reflexivity.
Qed.

(** ** Detection *)

Lemma detect_contract_witness :
  fst (detect two_languages (answering (Reply 500 (Some boom)))
         (Text "Bonjour") (fresh_client false))
  = Ok (One unknown).
Proof.
  assert (Hstatus : 500 ≠ 200) by discriminate.
  destruct (detect_contract two_languages (answering (Reply 500 (Some boom)))
              (fresh_client false) "Bonjour")
    as (req & _ & _ & _ & _ & _ & _ & Hfail & _).
  exact (Hfail 500 boom eq_refl (or_introl Hstatus)).
Defined.

Example detect_request :
  log (snd (detect two_languages (answering (Reply 200 (Some (french_scored JNull))))
              (Text "Bonjour") (fresh_client false)))
  = [{| req_method := POST;
        req_url := "https://api-b2b.backenster.com/b1/api/v3/translate?platform=dp";
        req_data := [("to", "en_US"); ("text", "Bonjour")];
        req_proxy := None; req_proxy_auth := None;
        req_via := TCPConnector 100;
        req_headers := [("Authorization", "Bearer token")];
        req_timeout := {| total := Some 30 |} |}].
Proof. reflexivity. Qed.

(** C6 as it is worded fails: a body that carries ['err'] with the value
    [None] under status 200 is a success.  [detect] returns the detected
    language, not ['unknown'], and in the raising mode it returns as well
    and does not raise. *)
Lemma detect_err_field_counterexample :
  (∃ m err, french_err_null = JDict m ∧ m !! "err" = Some err) ∧
  fst (detect two_languages (answering (Reply 200 (Some french_err_null)))
         (Text "Bonjour") (fresh_client false))
  = Ok (One {| lang := JStr "fr_FR"; confidence := JNull |}) ∧
  {| lang := JStr "fr_FR"; confidence := JNull |} ≠ unknown ∧
  fst (detect two_languages (answering (Reply 200 (Some french_err_null)))
         (Text "Bonjour") (fresh_client true))
  = Ok (One {| lang := JStr "fr_FR"; confidence := JNull |}).
Proof.
  split; [eexists _, JNull; split; reflexivity|].
  split; [reflexivity|]. split; [discriminate|reflexivity].
Qed.

Lemma detect_confidence_is_score_witness :
  ∃ d, fst (detect two_languages
              (answering (Reply 200 (Some (french_scored (JFloat 0.5)))))
              (Text "Bonjour") (fresh_client false)) = Ok (One d) ∧
       confidence d = JFloat 0.5.
Proof.
  destruct (detect_confidence_is_score two_languages
              (answering (Reply 200 (Some (french_scored (JFloat 0.5)))))
              (fresh_client false) "Bonjour")
    as (req & _ & Hscore & _).
  exact (Hscore _ (JFloat 0.5) eq_refl eq_refl eq_refl).
Defined.

(** C9 as it is worded fails: the score is handed on unchecked.  A
    score of 7.5 becomes a [confidence] of 7.5 and a score that is a
    string becomes a [confidence] that is a string; neither is [None] or
    a float between 0.0 and 1.0. *)
Lemma detect_confidence_counterexample :
  fst (detect two_languages (answering (Reply 200 (Some (french_scored (JFloat 7.5)))))
         (Text "Bonjour") (fresh_client false))
  = Ok (One {| lang := JStr "fr_FR"; confidence := JFloat 7.5 |}) ∧
  confidence_in_range (JFloat 7.5) = false ∧
  fst (detect two_languages (answering (Reply 200 (Some (french_scored (JStr "high")))))
         (Text "Bonjour") (fresh_client false))
  = Ok (One {| lang := JStr "fr_FR"; confidence := JStr "high" |}) ∧
  confidence_in_range (JStr "high") = false.
Proof. repeat split; reflexivity. Qed.

(** ** The list form *)

Lemma list_form_is_sequential_witness :
  let run := translate two_languages shouting
               (TextList [Text "a"; Text "b"; Text "c"]) "fr" "en"
               (fresh_client false) in
  ∃ rs, fst run = Ok (Many rs) ∧ length rs = 3%nat ∧
        chain (λ item, translate two_languages shouting item "fr" "en")
          [Text "a"; Text "b"; Text "c"] (fresh_client false) rs (snd run).
Proof.
  intros run.
  destruct (list_form_is_sequential two_languages shouting
              [Text "a"; Text "b"; Text "c"] "fr" "en" (fresh_client false))
    as (Hchain & _ & Hlength & _).
  destruct run as [[r|e] st'] eqn:Hrun; [|vm_compute in Hrun; discriminate Hrun].
  destruct (Hlength r st' Hrun) as (rs & -> & Hlen & _).
  exists rs. split; [reflexivity|]. split; [exact Hlen|].
  apply Hchain. exact Hrun.
Defined.

(** The texts come back in the order they went in, and the requests
    went out in that order. *)
Example batch_order :
  let run := translate two_languages shouting
               (TextList [Text "a"; Text "b"; Text "c"]) "fr" "en"
               (fresh_client false) in
  match fst run with
  | Ok (Many rs) =>
    Some ((λ r, match r with One t => Some (text t) | Many _ => None end) <$> rs)
  | _ => None
  end = Some [Some (JStr "A"); Some (JStr "B"); Some (JStr "C")] ∧
  (λ req, field "text" (req_data req)) <$> log (snd run)
  = [Some "a"; Some "b"; Some "c"].
Proof. split; reflexivity. Qed.

(** ** Closing and coming back *)

Lemma close_is_idempotent_witness :
  ∃ st1,
    repeat_call (close (failing_close (Reply 200 (Some bonjour)))) 2
      (fresh_client false) = (Ok tt, st1) ∧
    _session (self st1) = None ∧
    ∃ t, fst (translate two_languages (failing_close (Reply 200 (Some bonjour)))
                (Text "Hello") "fr" "auto" st1) = Ok (One t).
Proof.
  destruct (close_is_idempotent two_languages (failing_close (Reply 200 (Some bonjour)))
              (fresh_client false) 1)
    as (st1 & Hclose & Hsession & _ & _ & _ & Htranslate).
  exists st1. split; [exact Hclose|]. split; [exact Hsession|].
  destruct (Htranslate "Hello" "fr" "auto" "fr_FR" "auto" eq_refl eq_refl)
    as (req & _ & _ & Hsuccess).
  exact (Hsuccess _ eq_refl eq_refl).
Defined.

(** ** Proxies *)

Lemma recreated_session_is_plain_tcp_witness :
  let st0 := construct "token" false None (Some "socks5://127.0.0.1:1080") None 100 in
  via st0 = Some (ProxyConnector "socks5://127.0.0.1:1080") ∧
  ∃ st1 st2,
    repeat_call (close (answering (Reply 200 (Some bonjour)))) 1 st0 = (Ok tt, st1) ∧
    _ensure_session st1 = (Ok tt, st2) ∧
    via st2 = Some (TCPConnector 100) ∧
    proxy (self st2) = None ∧
    _use_proxy_connector (self st2) = true.
Proof.
  intros st0.
  destruct (recreated_session_is_plain_tcp (answering (Reply 200 (Some bonjour))))
    as (_ & Hsocks & _).
  destruct (Hsocks st0 "socks5://127.0.0.1:1080" None eq_refl) as [Hvia Hafter].
  { left. exists "token", false, None, 100. reflexivity. }
  split; [exact Hvia|]. exact (Hafter 0%nat).
Defined.

Example http_proxy_survives :
  let W := answering (Reply 200 (Some bonjour)) in
  let st0 := construct "token" false None (Some "http://proxy:8080")
               (Some ("user", "secret")) 100 in
  let st1 := snd (close W st0) in
  (λ req, (req_proxy req, req_proxy_auth req, req_via req))
    <$> log (snd (translate two_languages W (Text "Hello") "fr" "auto" st1))
  = [(Some "http://proxy:8080",
      Some {| login := "user"; password := "secret" |},
      TCPConnector 100)].
Proof. reflexivity. Qed.

Example socks_proxy_is_lost :
  let W := answering (Reply 200 (Some bonjour)) in
  let st0 := construct "token" false None (Some "socks5://127.0.0.1:1080") None 100 in
  let st1 := snd (close W st0) in
  req_via <$> log (snd (translate two_languages W (Text "Hello") "fr" "auto" st0))
  = [ProxyConnector "socks5://127.0.0.1:1080"] ∧
  (λ req, (req_proxy req, req_via req))
    <$> log (snd (translate two_languages W (Text "Hello") "fr" "auto" st1))
  = [(None, TCPConnector 100)].
Proof. split; reflexivity. Qed.

(** * Beyond the claims *)

(** ** What the three calls do with an answer *)

Section Outcomes.
Context (K : constants) (W : world).

(** [translate_response] by cases; it never touches the state. *)
Lemma translate_response_cases (st : State) (s dest_arg src_arg src_code : string)
    (status : Z) (body : option json) :
  translate_response s dest_arg src_arg src_code status body st =
  (match body with
   | None => Raise JSONDecodeError
   | Some data =>
     if negb (status =? 200) then
       if raise_exception (self st) then Raise (Exception_status status data)
       else Ok (degraded s dest_arg src_arg data)
     else
       match data with
       | JDict m =>
         let err := default JNull (m !! "err") in
         if truthy err then
           if raise_exception (self st) then Raise (Exception_err err)
           else Ok (degraded s dest_arg src_arg data)
         else Ok {| src := reported_src src_arg src_code m; dest := dest_arg;
                    origin := s; text := default (JStr "") (m !! "result");
                    extra_data := data |}
       | _ => Raise (AttributeError "get")
       end
   end, st).
Proof.
  unfold translate_response, resp_json, dict_get, reported_src, degraded. run.
  destruct body as [data|]; simpl; [|reflexivity].
  destruct (negb (status =? 200)).
  - now destruct (raise_exception (self st)).
  - destruct data; simpl; try reflexivity.
    destruct (truthy (default JNull (m !! "err"))); [|reflexivity].
    now destruct (raise_exception (self st)).
Qed.

Lemma translate_run (st : State) (s dest_arg src_arg dest_code src_code : string)
    (req : request) :
  _normalize_lang K dest_arg = Ok dest_code →
  _normalize_lang K src_arg = Ok src_code →
  request_of st POST (TRANSLATE_URL K) (translate_payload dest_code src_code s)
    = Some req →
  translate K W (Text s) dest_arg src_arg st =
  match remote W (log st) req with
  | Reply status body =>
    (match fst (translate_response s dest_arg src_arg src_code status body
                  (sent st req)) with
     | Ok t => Ok (One t)
     | Raise e => Raise e
     end, sent st req)
  | No_reply msg => (Raise (ClientError msg), sent st req)
  end.
Proof.
  intros Hdest Hsrc Hreq. simpl. unfold mbind, M_bind.
  rewrite (translate_text_run K W _ _ _ _ _ _ _ Hdest Hsrc Hreq).
  destruct (remote W (log st) req) as [status body|msg]; [|reflexivity].
  pose proof (translate_response_state (sent st req) s dest_arg src_arg src_code
                status body) as Hstate.
  destruct (translate_response _ _ _ _ _ _ _) as [[t|e] st1];
    simpl in Hstate; subst st1; reflexivity.
Qed.

Lemma get_languages_run (st : State) (req : request) :
  request_of st GET (GET_LANGUAGES_URL K) [] = Some req →
  get_languages K W st =
  match remote W (log st) req with
  | Reply status body =>
    (languages_outcome (raise_exception (self st)) body, sent st req)
  | No_reply msg => (Raise (ClientError msg), sent st req)
  end.
Proof.
  intros Hreq.
  destruct (ensure_then_send W _ _ _ _ _ Hreq) as (st1 & Hrun & Hsend).
  unfold get_languages. run. rewrite Hrun. simpl. rewrite Hsend.
  destruct (remote W (log st) req) as [status body|msg]; [|reflexivity].
  simpl. rewrite <- (sent_raise_exception st req).
  unfold languages_outcome, resp_json, dict_get. run.
  destruct body as [data|]; simpl; [|reflexivity].
  destruct data; simpl; try reflexivity.
  destruct (truthy (default JNull (m !! "err"))); [|reflexivity].
  now destruct (raise_exception _).
Qed.

(** X1: [get_languages] never looks at the status.  Whatever the status
    of the answer, a body that is a dict with a true ['err'] makes it
    raise or return the empty list, by [raise_exception]; a dict without
    one makes it return the value under ['result'], the empty list when
    there is none. *)
Theorem get_languages_ignores_status (st : State) (req : request) (status : Z)
    (m : gmap string json) :
  request_of st GET (GET_LANGUAGES_URL K) [] = Some req →
  remote W (log st) req = Reply status (Some (JDict m)) →
  fst (get_languages K W st) =
  if truthy (default JNull (m !! "err")) then
    if raise_exception (self st) then Raise (Exception_err (default JNull (m !! "err")))
    else Ok (JList [])
  else Ok (default (JList []) (m !! "result")).
Proof.
  intros Hreq Hreply. now rewrite (get_languages_run _ _ Hreq), Hreply.
Qed.

(** X2: whatever the state of the client, [get_languages] sends exactly
    one request: a GET to the languages URL, without form data, with the
    proxy and credentials of the client. *)
Theorem get_languages_sends_one_get (st : State) :
  ∃ req,
    log (snd (get_languages K W st)) = (log st ++ [req])%list ∧
    req_method req = GET ∧ req_url req = GET_LANGUAGES_URL K ∧
    req_data req = [] ∧
    req_proxy req = proxy (self st) ∧ req_proxy_auth req = proxy_auth (self st).
Proof.
  destruct (request_of_total st GET (GET_LANGUAGES_URL K) [])
    as (req & Hreq & Hmethod & Hurl & Hdata & Hproxy & Hauth).
  exists req. rewrite (get_languages_run _ _ Hreq).
  split; [|auto].
  now destruct (remote W (log st) req).
Qed.

(** X3: a call of [translate] on a text with resolvable languages sends
    exactly one request, whatever the answer: a POST to the translate
    URL whose form carries the normalized destination under ['to'], the
    text under ['text'], and the normalized source under ['from'] unless
    that is ['auto'], in which case there is no ['from']. *)
Theorem translate_sends_one_post (st : State)
    (s dest_arg src_arg dest_code src_code : string) :
  _normalize_lang K dest_arg = Ok dest_code →
  _normalize_lang K src_arg = Ok src_code →
  ∃ req,
    log (snd (translate K W (Text s) dest_arg src_arg st)) = (log st ++ [req])%list ∧
    req_method req = POST ∧ req_url req = TRANSLATE_URL K ∧
    field "to" (req_data req) = Some dest_code ∧
    field "text" (req_data req) = Some s ∧
    field "from" (req_data req)
      = (if String.eqb src_code "auto" then None else Some src_code) ∧
    req_proxy req = proxy (self st) ∧ req_proxy_auth req = proxy_auth (self st).
Proof.
  intros Hdest Hsrc.
  destruct (request_of_total st POST (TRANSLATE_URL K)
              (translate_payload dest_code src_code s))
    as (req & Hreq & Hmethod & Hurl & Hdata & Hproxy & Hauth).
  exists req. rewrite (translate_run _ _ _ _ _ _ _ Hdest Hsrc Hreq).
  split; [now destruct (remote W (log st) req)|].
  rewrite Hdata. unfold translate_payload.
  repeat split; try assumption; simpl; now destruct (String.eqb src_code "auto").
Qed.

(** X4: a request that gets no answer makes the call raise what the
    transport raised, whatever [raise_exception] says: [translate],
    [detect] and [get_languages] absorb remote errors only. *)
Theorem transport_failure_is_raised (st : State) (msg : string) :
  (∀ s dest_arg src_arg dest_code src_code req,
     _normalize_lang K dest_arg = Ok dest_code →
     _normalize_lang K src_arg = Ok src_code →
     request_of st POST (TRANSLATE_URL K) (translate_payload dest_code src_code s)
       = Some req →
     remote W (log st) req = No_reply msg →
     fst (translate K W (Text s) dest_arg src_arg st) = Raise (ClientError msg)) ∧
  (∀ s req,
     request_of st POST (detect_url K) (detect_payload s) = Some req →
     remote W (log st) req = No_reply msg →
     fst (detect K W (Text s) st) = Raise (ClientError msg)) ∧
  (∀ req,
     request_of st GET (GET_LANGUAGES_URL K) [] = Some req →
     remote W (log st) req = No_reply msg →
     fst (get_languages K W st) = Raise (ClientError msg)).
Proof.
  split; [|split].
  - intros s dest_arg src_arg dest_code src_code req Hdest Hsrc Hreq Hreply.
    now rewrite (translate_run _ _ _ _ _ _ _ Hdest Hsrc Hreq), Hreply.
  - intros s req Hreq Hreply. now rewrite (detect_run K W _ _ _ Hreq), Hreply.
  - intros req Hreq Hreply. now rewrite (get_languages_run _ _ Hreq), Hreply.
Qed.

(** X5: an answer whose body is not blank and is no JSON text makes the
    call raise [JSONDecodeError], whatever the status and whatever
    [raise_exception] says; so a gateway's HTML error page is not
    absorbed in the non-raising mode.  A blank body is another matter:
    it decodes to [None], which under a status other than 200 goes the
    way of the failure policy, raised with the status or handed back as
    [extra_data]. *)
Theorem undecodable_body_is_raised (st : State) (status : Z) :
  (∀ s dest_arg src_arg dest_code src_code req,
     _normalize_lang K dest_arg = Ok dest_code →
     _normalize_lang K src_arg = Ok src_code →
     request_of st POST (TRANSLATE_URL K) (translate_payload dest_code src_code s)
       = Some req →
     remote W (log st) req = Reply status None →
     fst (translate K W (Text s) dest_arg src_arg st) = Raise JSONDecodeError) ∧
  (∀ s req,
     request_of st POST (detect_url K) (detect_payload s) = Some req →
     remote W (log st) req = Reply status None →
     fst (detect K W (Text s) st) = Raise JSONDecodeError) ∧
  (∀ req,
     request_of st GET (GET_LANGUAGES_URL K) [] = Some req →
     remote W (log st) req = Reply status None →
     fst (get_languages K W st) = Raise JSONDecodeError) ∧
  (∀ s dest_arg src_arg dest_code src_code req,
     _normalize_lang K dest_arg = Ok dest_code →
     _normalize_lang K src_arg = Ok src_code →
     request_of st POST (TRANSLATE_URL K) (translate_payload dest_code src_code s)
       = Some req →
     remote W (log st) req = Reply status (Some JNull) →
     status ≠ 200 →
     fst (translate K W (Text s) dest_arg src_arg st) =
     if raise_exception (self st) then Raise (Exception_status status JNull)
     else Ok (One (degraded s dest_arg src_arg JNull))) ∧
  (∀ s req,
     request_of st POST (detect_url K) (detect_payload s) = Some req →
     remote W (log st) req = Reply status (Some JNull) →
     status ≠ 200 →
     fst (detect K W (Text s) st) =
     if raise_exception (self st) then Raise (Exception_status status JNull)
     else Ok (One unknown)).
Proof.
  split; [|split; [|split; [|split]]].
  - intros s dest_arg src_arg dest_code src_code req Hdest Hsrc Hreq Hreply.
    rewrite (translate_run _ _ _ _ _ _ _ Hdest Hsrc Hreq), Hreply.
    now rewrite translate_response_cases.
  - intros s req Hreq Hreply. rewrite (detect_run K W _ _ _ Hreq), Hreply.
    now rewrite detect_response_cases.
  - intros req Hreq Hreply. now rewrite (get_languages_run _ _ Hreq), Hreply.
  - intros s dest_arg src_arg dest_code src_code req Hdest Hsrc Hreq Hreply Hstatus.
    rewrite (translate_run _ _ _ _ _ _ _ Hdest Hsrc Hreq), Hreply.
    rewrite translate_response_cases, sent_raise_exception. simpl.
    apply Z.eqb_neq in Hstatus. rewrite Hstatus. simpl.
    now destruct (raise_exception (self st)).
  - intros s req Hreq Hreply Hstatus.
    rewrite (detect_run K W _ _ _ Hreq), Hreply.
    rewrite detect_response_cases, sent_raise_exception. simpl.
    apply Z.eqb_neq in Hstatus. rewrite Hstatus. simpl.
    now destruct (raise_exception (self st)).
Qed.

(** X6: a JSON body that is no object (a list, a string, a number,
    [null]) under status 200 makes [translate] and [detect] raise
    [AttributeError] in either mode; under any other status the
    non-raising mode hands it back as [extra_data] of the degraded
    result. *)
Theorem non_object_body (st : State) (data : json) :
  is_dict data = false →
  (∀ s dest_arg src_arg dest_code src_code req status,
     _normalize_lang K dest_arg = Ok dest_code →
     _normalize_lang K src_arg = Ok src_code →
     request_of st POST (TRANSLATE_URL K) (translate_payload dest_code src_code s)
       = Some req →
     remote W (log st) req = Reply status (Some data) →
     (status = 200 →
      fst (translate K W (Text s) dest_arg src_arg st) = Raise (AttributeError "get")) ∧
     (status ≠ 200 → raise_exception (self st) = false →
      fst (translate K W (Text s) dest_arg src_arg st)
      = Ok (One (degraded s dest_arg src_arg data)))) ∧
  (∀ s req status,
     request_of st POST (detect_url K) (detect_payload s) = Some req →
     remote W (log st) req = Reply status (Some data) →
     (status = 200 →
      fst (detect K W (Text s) st) = Raise (AttributeError "get")) ∧
     (status ≠ 200 → raise_exception (self st) = false →
      fst (detect K W (Text s) st) = Ok (One unknown))).
Proof.
  intros Hdata. split.
  - intros s dest_arg src_arg dest_code src_code req status Hdest Hsrc Hreq Hreply.
    rewrite (translate_run _ _ _ _ _ _ _ Hdest Hsrc Hreq), Hreply.
    rewrite translate_response_cases, sent_raise_exception. simpl. split.
    + intros ->. simpl. now destruct data.
    + intros Hstatus Hmode. apply Z.eqb_neq in Hstatus.
      now rewrite Hstatus, Hmode.
  - intros s req status Hreq Hreply.
    rewrite (detect_run K W _ _ _ Hreq), Hreply.
    rewrite detect_response_cases, sent_raise_exception. simpl. split.
    + intros ->. simpl. now destruct data.
    + intros Hstatus Hmode. apply Z.eqb_neq in Hstatus.
      now rewrite Hstatus, Hmode.
Qed.

End Outcomes.

(** X7: the degraded result does not record that the call failed.  In
    the non-raising mode, with a source language other than ['auto'], a
    failed call (any status but 200) whose body is a dict without
    ['err'] and without a non-empty ['result'] returns the very
    [Translated] that a successful call (status 200) with the same body
    returns. *)
Theorem degraded_equals_empty_success (K : constants) (W W' : world) (st : State)
    (s dest_arg src_arg dest_code src_code : string) (req : request)
    (status : Z) (m : gmap string json) :
  _normalize_lang K dest_arg = Ok dest_code →
  _normalize_lang K src_arg = Ok src_code →
  src_code ≠ "auto" →
  raise_exception (self st) = false →
  request_of st POST (TRANSLATE_URL K) (translate_payload dest_code src_code s)
    = Some req →
  remote W (log st) req = Reply status (Some (JDict m)) →
  remote W' (log st) req = Reply 200 (Some (JDict m)) →
  m !! "err" = None →
  m !! "result" = None ∨ m !! "result" = Some (JStr "") →
  fst (translate K W (Text s) dest_arg src_arg st)
  = fst (translate K W' (Text s) dest_arg src_arg st).
Proof.
  intros Hdest Hsrc Hauto Hmode Hreq Hreply Hreply' Herr Hresult.
  rewrite (translate_run K W _ _ _ _ _ _ _ Hdest Hsrc Hreq), Hreply.
  rewrite (translate_run K W' _ _ _ _ _ _ _ Hdest Hsrc Hreq), Hreply'.
  rewrite !translate_response_cases, sent_raise_exception, Hmode, Herr. simpl.
  apply String.eqb_neq in Hauto.
  unfold reported_src, degraded. rewrite Hauto. simpl.
  destruct (negb (status =? 200)); [|reflexivity].
  simpl. now destruct Hresult as [->| ->].
Qed.

(** ** The session manager *)

Section Manager.
Context (W : world).

(** X8: [_ensure_session] is idempotent: it always returns, a second
    call right after it changes nothing, and a call on a client whose
    session is open changes nothing at all. *)
Theorem ensure_is_idempotent (st : State) :
  ∃ st1,
    _ensure_session st = (Ok tt, st1) ∧
    _ensure_session st1 = (Ok tt, st1) ∧
    (∀ ok, current st = Some ok → st1 = st).
Proof.
  destruct (ensure_total st) as (st1 & o & k & Hrun & Hcur & _).
  exists st1. split; [exact Hrun|]. split; [exact (ensure_keeps _ _ Hcur)|].
  intros ok Hlive. rewrite (ensure_keeps _ _ Hlive) in Hrun. congruence.
Qed.

(** X9: a client is ready as soon as it is constructed.  Its session is
    open, owns the connector that [self.connector] refers to, carries
    the timeout given (30 seconds when none is) and the authorization
    header, and goes through the connector the proxy argument asks for;
    [_ensure_session], and so [__aenter__], builds nothing. *)
Theorem new_client_is_ready (token : string) (raise_exc : bool)
    (timeout_arg : option ClientTimeout) (proxy_arg : option string)
    (proxy_auth_arg : option (string * string)) (limit : Z) :
  let st0 := construct token raise_exc timeout_arg proxy_arg proxy_auth_arg limit in
  __aenter__ st0 = (Ok tt, st0) ∧
  log st0 = [] ∧
  ∃ o k,
    current st0 = Some (o, k) ∧
    sess_connector o = connector (self st0) ∧
    connector_owner o = true ∧
    sess_timeout o = default {| total := Some 30 |} timeout_arg ∧
    sess_headers o = [("Authorization", _token (self st0))] ∧
    kind k = wanted_connector proxy_arg limit.
Proof.
  intros st0.
  assert (Hcur : ∃ o k,
            current st0 = Some (o, k) ∧
            sess_connector o = connector (self st0) ∧
            connector_owner o = true ∧
            sess_timeout o = default {| total := Some 30 |} timeout_arg ∧
            sess_headers o = [("Authorization", _token (self st0))] ∧
            kind k = wanted_connector proxy_arg limit).
  { subst st0. unfold construct, __init__, current, open_session, wanted_connector.
    destruct proxy_arg as [p|]; [destruct (is_socks p)|]; simpl;
      rewrite !lookup_insert_eq; simpl; rewrite ?lookup_insert_eq; simpl;
      eexists _, _; repeat split. }
  destruct Hcur as (o & k & Hcur & Hrest).
  split; [exact (ensure_keeps _ _ Hcur)|].
  split.
  - subst st0. unfold construct, __init__.
    destruct proxy_arg as [p|]; [destruct (is_socks p)|]; reflexivity.
  - exists o, k. split; [exact Hcur|exact Hrest].
Qed.

Lemma prefix_append (p s : string) : String.prefix p (p +:+ s) = true.
Proof.
  induction p as [|c p IH]; simpl.
  - now destruct s.
  - destruct (ascii_dec c c) as [_|Hne]; [exact IH|congruence].
Qed.

(** X10: the constructor stores the token with the prefix ['Bearer ']:
    a token that has it is kept, one that lacks it gets it, and handing
    the stored token to the constructor again builds the same client. *)
Theorem token_gets_bearer_prefix (token : string) (raise_exc : bool)
    (timeout_arg : option ClientTimeout) (proxy_arg : option string)
    (proxy_auth_arg : option (string * string)) (limit : Z) :
  let stored :=
    _token (self (construct token raise_exc timeout_arg proxy_arg proxy_auth_arg limit)) in
  startswith stored "Bearer " = true ∧
  (startswith token "Bearer " = true → stored = token) ∧
  (startswith token "Bearer " = false → stored = "Bearer " +:+ token) ∧
  construct stored raise_exc timeout_arg proxy_arg proxy_auth_arg limit
  = construct token raise_exc timeout_arg proxy_arg proxy_auth_arg limit.
Proof.
  assert (Hstored :
    _token (self (construct token raise_exc timeout_arg proxy_arg proxy_auth_arg limit))
    = if startswith token "Bearer " then token else "Bearer " +:+ token).
  { unfold construct, __init__.
    destruct proxy_arg as [p|]; [destruct (is_socks p)|]; reflexivity. }
  cbv zeta. rewrite Hstored.
  assert (Hprefix : startswith (if startswith token "Bearer " then token
                                else "Bearer " +:+ token) "Bearer " = true).
  { destruct (startswith token "Bearer ") eqn:Hhas; [exact Hhas|].
    apply prefix_append. }
  split; [exact Hprefix|].
  split; [now intros ->|]. split; [now intros ->|].
  unfold construct, __init__. now rewrite Hprefix.
Qed.

(** X11: a second [close] does nothing: after one [close] the client
    holds no session and no connector, and closing again returns
    without calling aiohttp and without changing the state. *)
Theorem second_close_is_a_no_op (st : State) :
  ∃ st1,
    close W st = (Ok tt, st1) ∧
    _session (self st1) = None ∧ connector (self st1) = None ∧
    ∀ W', close W' st1 = (Ok tt, st1).
Proof.
  destruct (close_total W st) as [h Hclose].
  eexists. split; [exact Hclose|]. repeat split.
Qed.

(** X12: used as a context manager the client is closed on the way out,
    whether the body returned or raised, and the outcome of the block is
    the outcome of the body, run on an open session. *)
Theorem async_with_closes {A : Type} (body : M A) (st : State) :
  ∃ st1 r st2 h,
    _ensure_session st = (Ok tt, st1) ∧
    (∃ ok, current st1 = Some ok) ∧
    body st1 = (r, st2) ∧
    async_with W body st
    = (r, {| self := closed_client (self st2); heap := h; log := log st2 |}).
Proof.
  destruct (ensure_total st) as (st1 & o & k & Hrun & Hcur & _).
  destruct (body st1) as [r st2] eqn:Hbody.
  destruct (close_total W st2) as [h Hclose].
  exists st1, r, st2, h. split; [exact Hrun|]. split; [eauto|].
  split; [exact Hbody|].
  unfold async_with, __aenter__, __aexit__, try_finally, mbind, M_bind.
  now rewrite Hrun, Hbody, Hclose.
Qed.

(** X13: the two ways of using a proxy exclude each other.  Right after
    [__init__] or a [change_proxy] that returned, a socks4 or socks5
    URL means a tunnelling connector with no per-request proxy and no
    credentials, the credentials given being dropped; any other URL
    means a plain TCP connector with that URL and the credentials handed
    to each request; no URL means a plain TCP connector and nothing
    else.  [_proxy_url] is the argument in each case. *)
Theorem proxy_modes_exclude_each_other (st0 : State) (proxy_arg : option string)
    (proxy_auth_arg : option (string * string)) (limit : Z) :
  (∃ token raise_exc timeout_arg,
     st0 = construct token raise_exc timeout_arg proxy_arg proxy_auth_arg limit) ∨
  (∃ st, change_proxy W proxy_arg proxy_auth_arg st = (Ok tt, st0) ∧
         connector_limit (self st) = limit) →
  _proxy_url (self st0) = proxy_arg ∧
  match proxy_arg with
  | Some url =>
    if is_socks url then
      via st0 = Some (ProxyConnector url) ∧
      proxy (self st0) = None ∧ proxy_auth (self st0) = None ∧
      _use_proxy_connector (self st0) = true
    else
      via st0 = Some (TCPConnector limit) ∧
      proxy (self st0) = Some url ∧
      proxy_auth (self st0) = basic_auth proxy_auth_arg ∧
      _use_proxy_connector (self st0) = false
  | None =>
    via st0 = Some (TCPConnector limit) ∧
    proxy (self st0) = None ∧ proxy_auth (self st0) = None ∧
    _use_proxy_connector (self st0) = false
  end.
Proof.
  intros Horigin.
  assert (Hres : via st0 = Some (wanted_connector proxy_arg limit) ∧
                 proxy (self st0) = wanted_proxy proxy_arg ∧
                 proxy_auth (self st0) = wanted_proxy_auth proxy_arg proxy_auth_arg ∧
                 _use_proxy_connector (self st0) = wanted_flag proxy_arg ∧
                 _proxy_url (self st0) = proxy_arg).
  { destruct Horigin as [(token & raise_exc & timeout_arg & ->)|(st & Hchange & <-)].
    - destruct (construct_result token raise_exc timeout_arg proxy_arg
                  proxy_auth_arg limit) as (Hvia & Hproxy & Hauth & Hflag & _).
      repeat split; try assumption.
      unfold construct, __init__.
      destruct proxy_arg as [p|]; [destruct (is_socks p)|]; reflexivity.
    - destruct (change_proxy_result W _ _ _ _ Hchange)
        as (Hvia & Hproxy & Hauth & Hflag & _).
      repeat split; try assumption.
      revert Hchange. unfold change_proxy. run.
      repeat match goal with
             | |- (let (_, _) := ?X in _) = _ → _ =>
               destruct X as [[[]|?] ?]; [|discriminate]
             end.
      proxy_cases W proxy_arg proxy_auth_arg; simpl; try discriminate;
        now intros [= <-]. }
  destruct Hres as (Hvia & Hproxy & Hauth & Hflag & Hurl).
  split; [exact Hurl|].
  unfold wanted_connector, wanted_proxy, wanted_proxy_auth, wanted_flag in *.
  destruct proxy_arg as [url|]; [destruct (is_socks url)|]; auto.
Qed.

(** X14: [change_proxy] does not swallow a failure of aiohttp as [close]
    does.  When closing the open session raises, [change_proxy] raises
    the same exception and stops there: the attributes of the client,
    its old proxy settings and its reference to the old session
    included, are as before, and no new session is built. *)
Theorem change_proxy_raises_on_close_failure (st : State) (s : loc)
    (e : exception) (h : Heap) (proxy_arg : option string)
    (proxy_auth_arg : option (string * string)) :
  _session (self st) = Some s →
  session_is_closed (heap st) s = false →
  session_close W s (heap st) = (Raise e, h) →
  change_proxy W proxy_arg proxy_auth_arg st
  = (Raise e, {| self := self st; heap := h; log := log st |}) ∧
  ∃ h', close W st = (Ok tt, {| self := closed_client (self st); heap := h';
                                log := log st |}).
Proof.
  intros Hsession Hopen Hfail. split; [|apply close_total].
  unfold change_proxy. run. rewrite Hsession, Hopen. simpl. now rewrite Hfail.
Qed.

(** X15: a proxy for a closed client.  On a client that holds no
    session and no connector [change_proxy] calls neither close of
    aiohttp: its outcome is the same however they behave.  Where
    aiohttp accepts the arguments it returns and leaves an open session
    through the connector the argument asks for.  Where
    [ProxyConnector.from_url] refuses the URL, or [aiohttp.BasicAuth]
    the login, it raises their [ValueError] and the client is left
    without session and connector, the store untouched.  The log is as
    it was in each case. *)
Theorem change_proxy_on_closed_client (st : State) (proxy_arg : option string)
    (proxy_auth_arg : option (string * string)) :
  _session (self st) = None →
  connector (self st) = None →
  (∀ W', refused_url W' = refused_url W → refused_login W' = refused_login W →
         change_proxy W' proxy_arg proxy_auth_arg st
         = change_proxy W proxy_arg proxy_auth_arg st) ∧
  match refused_argument W proxy_arg proxy_auth_arg with
  | None =>
    ∃ st0,
      change_proxy W proxy_arg proxy_auth_arg st = (Ok tt, st0) ∧
      via st0 = Some (wanted_connector proxy_arg (connector_limit (self st))) ∧
      log st0 = log st
  | Some arg =>
    ∃ st0,
      change_proxy W proxy_arg proxy_auth_arg st = (Raise (ValueError_argument arg), st0) ∧
      _session (self st0) = None ∧ connector (self st0) = None ∧
      heap st0 = heap st ∧ log st0 = log st
  end.
Proof.
  intros Hsession Hconnector. split.
  - intros W' Hurl Hlogin. unfold change_proxy. run.
    rewrite Hsession. simpl. rewrite Hconnector. simpl.
    now rewrite Hurl, Hlogin.
  - unfold refused_argument, wanted_connector, change_proxy. run.
    rewrite Hsession. simpl. rewrite Hconnector. simpl.
    proxy_cases W proxy_arg proxy_auth_arg; simpl;
      (eexists; split; [reflexivity|]);
      unfold via, current, open_session; simpl;
      rewrite ?lookup_insert_eq; simpl; rewrite ?lookup_insert_eq; simpl;
      repeat split.
Qed.

End Manager.

(** ** What a call leaves behind *)

Section Footprints.
Context (K : constants) (W : world).

Lemma footprint_ret {A : Type} (a : A) (st : State) :
  footprint 0 st ((mret a : M A) st).
Proof.
  repeat split. exists []. simpl. rewrite app_nil_r. auto.
Qed.

Lemma footprint_raise {A : Type} (e : exception) (n : nat) (st : State) :
  footprint n st (@Raise A e, st).
Proof.
  repeat split. exists []. simpl. rewrite app_nil_r.
  repeat split; [lia|discriminate].
Qed.

Lemma footprint_bind {A B : Type} (m : M A) (f : A → M B) (n k : nat) (st : State) :
  footprint n st (m st) →
  (∀ a st1, m st = (Ok a, st1) → footprint k st1 (f a st1)) →
  footprint (n + k) st (mbind f m st).
Proof.
  intros (Hset & Hproxy & new & Hlog & Hle & Hexact) Hf.
  unfold mbind, M_bind. destruct (m st) as [[a|e] st1] eqn:Hm; simpl in *.
  - destruct (Hf a st1 eq_refl) as (Hset2 & Hproxy2 & new2 & Hlog2 & Hle2 & Hexact2).
    split; [congruence|]. split; [congruence|].
    exists (new ++ new2)%list. rewrite Hlog2, Hlog, app_assoc, length_app.
    specialize (Hexact eq_refl). repeat split; [lia|].
    intros Hok. specialize (Hexact2 Hok). lia.
  - split; [exact Hset|]. split; [exact Hproxy|].
    exists new. repeat split; [exact Hlog|lia|discriminate].
Qed.

Lemma footprint_for_each {A B : Type} (f : A → M B) (cost : A → nat)
    (items : list A) :
  Forall (λ item, ∀ st, footprint (cost item) st (f item st)) items →
  ∀ st, footprint (length (concat (map (λ item, replicate (cost item) tt) items)))
          st (for_each f items st).
Proof.
  induction 1 as [|item rest Hitem _ IH]; intros st; simpl.
  - apply footprint_ret.
  - rewrite length_app, length_replicate.
    apply footprint_bind; [apply Hitem|].
    intros y st1 _.
    replace (length (concat (map (λ item0, replicate (cost item0) tt) rest)))
      with (length (concat (map (λ item0, replicate (cost item0) tt) rest)) + 0)%nat
      by lia.
    apply footprint_bind; [apply IH|].
    intros ys st2 _. apply footprint_ret.
Qed.

Lemma ensure_keeps_settings (st : State) :
  settings (self (snd (_ensure_session st))) = settings (self st) ∧
  proxy_settings (self (snd (_ensure_session st))) = proxy_settings (self st).
Proof.
  destruct (current st) as [ok|] eqn:Hcur.
  - rewrite (ensure_keeps _ _ Hcur). auto.
  - destruct (ensure_recreates _ Hcur) as (c & s & -> & _). auto.
Qed.

Lemma footprint_sent {A : Type} (r : result A) (st : State) (req : request) :
  footprint 1 st (r, sent st req).
Proof.
  destruct (ensure_keeps_settings st) as [Hset Hproxy].
  split; [exact Hset|]. split; [exact Hproxy|].
  exists [req]. simpl. auto.
Qed.

Lemma translate_text_footprint (s dest_arg src_arg : string) (st : State) :
  footprint 1 st (translate_text K W s dest_arg src_arg st).
Proof.
  destruct (_normalize_lang K dest_arg) as [dest_code|e] eqn:Hdest.
  - destruct (_normalize_lang K src_arg) as [src_code|e] eqn:Hsrc.
    + destruct (request_of_total st POST (TRANSLATE_URL K)
                  (translate_payload dest_code src_code s)) as (req & Hreq & _).
      rewrite (translate_text_run K W _ _ _ _ _ _ _ Hdest Hsrc Hreq).
      destruct (remote W (log st) req) as [status body|msg];
        [|apply footprint_sent].
      pose proof (translate_response_state (sent st req) s dest_arg src_arg src_code
                    status body) as Hstate.
      destruct (translate_response _ _ _ _ _ _ _) as [r st1].
      simpl in Hstate. subst st1. apply footprint_sent.
    + unfold translate_text. run. rewrite Hdest, Hsrc. apply footprint_raise.
  - unfold translate_text. run. rewrite Hdest. apply footprint_raise.
Qed.

Lemma detect_text_footprint (s : string) (st : State) :
  footprint 1 st (detect_text K W s st).
Proof.
  destruct (request_of_total st POST (detect_url K) (detect_payload s))
    as (req & Hreq & _).
  rewrite (detect_text_run K W _ _ _ Hreq).
  destruct (remote W (log st) req) as [status body|msg]; [|apply footprint_sent].
  rewrite detect_response_cases. apply footprint_sent.
Qed.

Lemma footprint_map {A B : Type} (g : A → B) (m : M A) (n : nat) (st : State) :
  footprint n st (m st) → footprint n st (mbind (λ a, (mret (g a) : M B)) m st).
Proof.
  intros Hm. replace n with (n + 0)%nat by lia.
  apply footprint_bind; [exact Hm|]. intros a st1 _. apply footprint_ret.
Qed.

Lemma length_texts_of_list (items : list text_input) :
  length (concat (map texts_of items))
  = length (concat (map (λ item, replicate (length (texts_of item)) tt) items)).
Proof.
  induction items as [|item rest IH]; simpl; [reflexivity|].
  now rewrite !length_app, length_replicate, IH.
Qed.

Lemma translate_footprint (t : text_input) (dest_arg src_arg : string) :
  ∀ st, footprint (length (texts_of t)) st (translate K W t dest_arg src_arg st).
Proof.
  induction t as [s|items IH] using text_input_nested_ind; intros st.
  - apply (footprint_map One), translate_text_footprint.
  - simpl texts_of. rewrite length_texts_of_list.
    apply (footprint_map Many).
    apply (footprint_for_each _ (λ item, length (texts_of item))). exact IH.
Qed.

Lemma detect_footprint (t : text_input) :
  ∀ st, footprint (length (texts_of t)) st (detect K W t st).
Proof.
  induction t as [s|items IH] using text_input_nested_ind; intros st.
  - apply (footprint_map One), detect_text_footprint.
  - simpl texts_of. rewrite length_texts_of_list.
    apply (footprint_map Many).
    apply (footprint_for_each _ (λ item, length (texts_of item))). exact IH.
Qed.

Lemma get_languages_footprint (st : State) :
  footprint 1 st (get_languages K W st).
Proof.
  destruct (request_of_total st GET (GET_LANGUAGES_URL K) []) as (req & Hreq & _).
  rewrite (get_languages_run K W _ _ Hreq).
  destruct (remote W (log st) req); apply footprint_sent.
Qed.

Lemma change_proxy_keeps_settings (st : State) (proxy_arg : option string)
    (proxy_auth_arg : option (string * string)) :
  settings (self (snd (change_proxy W proxy_arg proxy_auth_arg st)))
  = settings (self st).
Proof.
  unfold change_proxy. run.
  match goal with
  | |- context [let (_, _) := ?X in _] => destruct X as [r1 st1] eqn:Hfirst
  end.
  assert (Hself1 : self st1 = self st).
  { revert Hfirst. destruct (_session (self st)) as [s|];
      [destruct (negb (session_is_closed (heap st) s))|];
      try (now intros [= _ <-]).
    simpl. destruct (session_close W s (heap st)) as [r h]. simpl.
    intros Heq. inversion Heq. reflexivity. }
  destruct r1 as [[]|e]; [|simpl; now rewrite Hself1].
  match goal with
  | |- context [let (_, _) := ?X in _] => destruct X as [r2 st2] eqn:Hsecond
  end.
  assert (Hself2 : self st2 = with__session None (self st1)).
  { revert Hsecond. simpl. destruct (connector (self st1)) as [c|];
      [destruct (negb (connector_is_closed (heap st1) c))|];
      try (now intros [= _ <-]).
    simpl. destruct (connector_close W c (heap st1)) as [r h]. simpl.
    intros Heq. inversion Heq. reflexivity. }
  destruct r2 as [[]|e]; [|simpl; now rewrite Hself2, Hself1].
  proxy_cases W proxy_arg proxy_auth_arg; simpl;
    now rewrite Hself2, Hself1.
Qed.

(** X16: no method changes the token, the error policy, the timeout or
    the connection limit of a client, whatever it returns or raises;
    and no method but [change_proxy] changes its proxy settings. *)
Theorem methods_keep_the_settings (st : State) :
  (settings (self (snd (_ensure_session st))) = settings (self st) ∧
   proxy_settings (self (snd (_ensure_session st))) = proxy_settings (self st)) ∧
  (settings (self (snd (close W st))) = settings (self st) ∧
   proxy_settings (self (snd (close W st))) = proxy_settings (self st)) ∧
  (∀ proxy_arg proxy_auth_arg,
     settings (self (snd (change_proxy W proxy_arg proxy_auth_arg st)))
     = settings (self st)) ∧
  (∀ t dest_arg src_arg,
     settings (self (snd (translate K W t dest_arg src_arg st))) = settings (self st) ∧
     proxy_settings (self (snd (translate K W t dest_arg src_arg st)))
     = proxy_settings (self st)) ∧
  (∀ t,
     settings (self (snd (detect K W t st))) = settings (self st) ∧
     proxy_settings (self (snd (detect K W t st))) = proxy_settings (self st)) ∧
  (settings (self (snd (get_languages K W st))) = settings (self st) ∧
   proxy_settings (self (snd (get_languages K W st))) = proxy_settings (self st)).
Proof.
  split; [apply ensure_keeps_settings|].
  split; [destruct (close_total W st) as [h ->]; split; reflexivity|].
  split; [apply change_proxy_keeps_settings|].
  split; [intros t dest_arg src_arg;
          destruct (translate_footprint t dest_arg src_arg st) as (? & ? & _); auto|].
  split; [intros t; destruct (detect_footprint t st) as (? & ? & _); auto|].
  destruct (get_languages_footprint st) as (? & ? & _); auto.
Qed.

(** X17: there are no retries and no batching.  A call of [translate]
    or [detect] adds at most one request per text of its input to the
    log, after the requests that were there, and exactly one per text
    when it returns. *)
Theorem one_request_per_text (t : text_input) (dest_arg src_arg : string) (st : State) :
  (∃ new,
     log (snd (translate K W t dest_arg src_arg st)) = (log st ++ new)%list ∧
     (length new ≤ length (texts_of t))%nat ∧
     (∀ r, fst (translate K W t dest_arg src_arg st) = Ok r →
           length new = length (texts_of t))) ∧
  (∃ new,
     log (snd (detect K W t st)) = (log st ++ new)%list ∧
     (length new ≤ length (texts_of t))%nat ∧
     (∀ r, fst (detect K W t st) = Ok r → length new = length (texts_of t))).
Proof.
  split.
  - destruct (translate_footprint t dest_arg src_arg st)
      as (_ & _ & new & Hlog & Hle & Hexact).
    exists new. repeat split; [exact Hlog|exact Hle|].
    intros r Hr. apply Hexact. now rewrite Hr.
  - destruct (detect_footprint t st) as (_ & _ & new & Hlog & Hle & Hexact).
    exists new. repeat split; [exact Hlog|exact Hle|].
    intros r Hr. apply Hexact. now rewrite Hr.
Qed.

End Footprints.

(** ** Inputs and their results *)

Section Batches.
Context (K : constants) (W : world).

Lemma chain_Forall2 {A B : Type} (f : A → M B) (items : list A) (st : State)
    (ys : list B) (st' : State) :
  chain f items st ys st' →
  Forall2 (λ item y, ∃ sti sti', f item sti = (Ok y, sti')) items ys.
Proof. induction 1; constructor; eauto. Qed.

Lemma translate_text_echo (st st1 : State) (s dest_arg src_arg : string)
    (t : Translated) :
  translate_text K W s dest_arg src_arg st = (Ok t, st1) →
  dest t = dest_arg ∧ origin t = s.
Proof.
  unfold translate_text. run.
  destruct (_normalize_lang K dest_arg) as [dest_code|]; [|discriminate].
  destruct (_normalize_lang K src_arg) as [src_code|]; [|discriminate].
  destruct (_ensure_session st) as [[[]|] st2]; [|discriminate].
  destruct (send _ _ _ _ _ _ _ _) as [[[status body]|] st3]; [|discriminate].
  apply translate_response_echo.
Qed.

(** X18: every result says which text it belongs to.  When [translate]
    returns, on one text or on lists nested to any depth, the [origin]
    fields of the results, read in order, are the texts of the input,
    read in order, and the [dest] field of each result is the [dest]
    argument of the call. *)
Theorem results_echo_the_input (t : text_input) (dest_arg src_arg : string) :
  ∀ st r st',
    translate K W t dest_arg src_arg st = (Ok r, st') →
    origin <$> flatten r = texts_of t ∧
    Forall (λ x, dest x = dest_arg) (flatten r).
Proof.
  induction t as [s|items IH] using text_input_nested_ind; intros st r st'.
  - simpl. unfold mbind, M_bind.
    destruct (translate_text K W s dest_arg src_arg st) as [[x|e] st1] eqn:Hrun;
      [|discriminate].
    intros [= <- _]. apply translate_text_echo in Hrun as [Hdest Horigin].
    simpl. rewrite Horigin. split; [reflexivity|]. now constructor.
  - rewrite translate_list_unfold.
    destruct (for_each _ items st) as [[rs|e] st1] eqn:Hloop; [|discriminate].
    intros [= <- _]. apply for_each_chain, chain_Forall2 in Hloop.
    simpl. clear st st1.
    induction Hloop as [|item y rest ys (sti & sti' & Hitem) _ IHrest]; simpl.
    + split; [reflexivity|constructor].
    + apply Forall_cons in IH as [Hhead Htail].
      destruct (Hhead _ _ _ Hitem) as [Horigin Hdest].
      destruct (IHrest Htail) as [Horigins Hdests].
      rewrite fmap_app, Horigin, Horigins. split; [reflexivity|].
      apply Forall_app. auto.
Qed.

(** X19: a list call ends at the first item whose call raises.  It
    raises exactly when the calls on some items at the front of the
    list return and the call on the next item raises; it then raises
    that exception in the state that call left, the results of the
    items before are dropped, and the items after are never called. *)
Theorem list_call_stops_at_first_failure (items : list text_input)
    (dest_arg src_arg : string) (st : State) (e : exception) (st' : State) :
  (translate K W (TextList items) dest_arg src_arg st = (Raise e, st') ↔
   ∃ before item after rs st1,
     items = (before ++ item :: after)%list ∧
     chain (λ item, translate K W item dest_arg src_arg) before st rs st1 ∧
     translate K W item dest_arg src_arg st1 = (Raise e, st')) ∧
  (detect K W (TextList items) st = (Raise e, st') ↔
   ∃ before item after rs st1,
     items = (before ++ item :: after)%list ∧
     chain (detect K W) before st rs st1 ∧
     detect K W item st1 = (Raise e, st')).
Proof.
  split.
  - rewrite translate_list_unfold, <- for_each_raises.
    destruct (for_each _ items st) as [[rs|e1] st1].
    + split; discriminate.
    + split; now intros [= -> ->].
  - rewrite detect_list_unfold, <- for_each_raises.
    destruct (for_each _ items st) as [[rs|e1] st1].
    + split; discriminate.
    + split; now intros [= -> ->].
Qed.

Lemma for_each_returns {A B : Type} (f : A → M B) (I : State → Prop)
    (items : list A) :
  Forall (λ item, ∀ st, I st → ∃ y st', f item st = (Ok y, st') ∧ I st') items →
  ∀ st, I st → ∃ ys st', for_each f items st = (Ok ys, st') ∧ I st'.
Proof.
  induction 1 as [|item rest Hitem _ IH]; intros st Hst; simpl.
  - eexists _, _. split; [reflexivity|exact Hst].
  - destruct (Hitem st Hst) as (y & st1 & Hrun & Hst1).
    destruct (IH st1 Hst1) as (ys & st2 & Hrest & Hst2).
    unfold mbind, M_bind. rewrite Hrun, Hrest.
    eexists _, _. split; [reflexivity|exact Hst2].
Qed.

(** X20: the non-raising mode keeps its word as long as the remote side
    answers with JSON objects.  With [raise_exception] off and
    resolvable languages, [translate] returns on every input, whatever
    the statuses and ['err'] fields of the answers, and so does
    [detect]. *)
Theorem non_raising_mode_returns (st : State) (dest_arg src_arg dest_code src_code : string) :
  always_answers_objects W →
  raise_exception (self st) = false →
  _normalize_lang K dest_arg = Ok dest_code →
  _normalize_lang K src_arg = Ok src_code →
  ∀ t, (∃ r, fst (translate K W t dest_arg src_arg st) = Ok r) ∧
       (∃ r, fst (detect K W t st) = Ok r).
Proof.
  intros Hremote Hmode Hdest Hsrc.
  assert (Htr : ∀ t st0, raise_exception (self st0) = false →
            ∃ r st', translate K W t dest_arg src_arg st0 = (Ok r, st') ∧
                     raise_exception (self st') = false).
  { intros t. induction t as [s|items IH] using text_input_nested_ind; intros st0 Hst0.
    - destruct (request_of_total st0 POST (TRANSLATE_URL K)
                  (translate_payload dest_code src_code s)) as (req & Hreq & _).
      rewrite (translate_run K W _ _ _ _ _ _ _ Hdest Hsrc Hreq).
      destruct (Hremote (log st0) req) as (status & m & ->).
      rewrite translate_response_cases, sent_raise_exception, Hst0. simpl.
      destruct (negb (status =? 200));
        [|destruct (truthy (default JNull (m !! "err")))];
        (eexists _, _; split; [reflexivity|now rewrite sent_raise_exception]).
    - rewrite translate_list_unfold.
      destruct (for_each_returns (λ item, translate K W item dest_arg src_arg)
                  (λ s, raise_exception (self s) = false) items IH st0 Hst0)
        as (rs & st' & Hloop & Hst').
      rewrite Hloop. eauto. }
  assert (Hde : ∀ t st0, raise_exception (self st0) = false →
            ∃ r st', detect K W t st0 = (Ok r, st') ∧
                     raise_exception (self st') = false).
  { intros t. induction t as [s|items IH] using text_input_nested_ind; intros st0 Hst0.
    - destruct (request_of_total st0 POST (detect_url K) (detect_payload s))
        as (req & Hreq & _).
      rewrite (detect_run K W _ _ _ Hreq).
      destruct (Hremote (log st0) req) as (status & m & ->).
      rewrite detect_response_cases, sent_raise_exception, Hst0. simpl.
      destruct (negb (status =? 200));
        [|destruct (truthy (default JNull (m !! "err")))];
        (eexists _, _; split; [reflexivity|now rewrite sent_raise_exception]).
    - rewrite detect_list_unfold.
      destruct (for_each_returns (detect K W)
                  (λ s, raise_exception (self s) = false) items IH st0 Hst0)
        as (rs & st' & Hloop & Hst').
      rewrite Hloop. eauto. }
  intros t.
  destruct (Htr t st Hmode) as (r & st' & -> & _).
  destruct (Hde t st Hmode) as (r' & st'' & -> & _).
  eauto.
Qed.

End Batches.

(** ** The normalizer on well-formed tables *)

(** X21: when every alias leads to a full code of the known set, what
    the normalizer returns is ['auto'] or a full code of the known set,
    and normalizing it again returns it unchanged. *)
Theorem normalized_codes_are_canonical (K : constants) (code full : string) :
  aliases_lead_to_full_codes K →
  _normalize_lang K code = Ok full →
  (full = "auto" ∨ is_Some (LANGUAGES K !! full)) ∧
  _normalize_lang K full = Ok full.
Proof.
  intros [Halpha Hnames] Hrun.
  assert (Hcanon : full = "auto" ∨ is_Some (LANGUAGES K !! full)).
  { revert Hrun. unfold _normalize_lang.
    destruct (String.eqb code "auto"); [intros [= <-]; now left|].
    destruct (LANGUAGES K !! code) as [name|] eqn:Hfull.
    { intros [= <-]. right. eauto. }
    destruct (ALPHA1_TO_FULL K !! code) as [c|] eqn:Ha.
    { intros [= <-]. right. exact (Halpha _ _ Ha). }
    destruct (LANGCODES K !! str_lower K code) as [c|] eqn:Hn; [|discriminate].
    intros [= <-]. right. exact (Hnames _ _ Hn). }
  split; [exact Hcanon|].
  destruct Hcanon as [->|Hfull]; [reflexivity|].
  now apply normalize_full_code.
Qed.

(** ** The command-line tool *)

Section CommandLine.
Context (K : constants) (W : world) (D : defaults).

(** X22: the command-line tool closes its client on every path.
    Whatever the arguments and whatever the remote side does, the client
    it made holds no session and no connector when [async_main] ends;
    its outcome is the outcome of the one call it makes, and it prints
    one line when that call returned and nothing when it raised. *)
Theorem async_main_always_closes (args : Namespace) :
  let '(r, st, out) := async_main K W D args in
  _session (self st) = None ∧ connector (self st) = None ∧
  (is_ok r = true → length out = 1%nat) ∧
  (is_ok r = false → out = []) ∧
  is_ok r =
    if args_detect args
    then is_ok (fst (detect K W (Text (args_text args)) (Translator_default D)))
    else is_ok (fst (translate K W (Text (args_text args)) (args_dest args)
                       (args_src args) (Translator_default D))).
Proof.
  unfold async_main.
  destruct (args_detect args).
  - destruct (detect K W (Text (args_text args)) (Translator_default D))
      as [[[d|rs]|e] st1] eqn:Hrun;
      destruct (close_total W st1) as [h ->]; simpl; repeat split; try discriminate.
    exfalso. revert Hrun. simpl. unfold mbind, M_bind.
    destruct (detect_text K W _ _) as [[?|?] ?]; discriminate.
  - destruct (translate K W (Text (args_text args)) (args_dest args) (args_src args)
                (Translator_default D)) as [[[t|rs]|e] st1] eqn:Hrun;
      destruct (close_total W st1) as [h ->]; simpl; repeat split; try discriminate.
    exfalso. revert Hrun. simpl. unfold mbind, M_bind.
    destruct (translate_text K W _ _ _ _) as [[?|?] ?]; discriminate.
Qed.

(** X23: an unknown [--dest] or [--src] costs no request.  Without
    [--detect], when either matches nothing, [async_main] raises
    [ValueError], prints nothing, sends nothing, and still closes the
    client; with [--detect] the two arguments are not looked at and the
    one detection request goes out. *)
Theorem async_main_unresolved_language (args : Namespace) :
  unresolved K (args_dest args) ∨ unresolved K (args_src args) →
  (args_detect args = false →
   ∃ code st,
     async_main K W D args = (Raise (ValueError code), st, []) ∧
     (code = args_dest args ∨ code = args_src args) ∧
     log st = [] ∧ _session (self st) = None ∧ connector (self st) = None) ∧
  (args_detect args = true →
   ∃ req, log (snd (fst (async_main K W D args))) = [req] ∧
          req_url req = detect_url K ∧
          req_data req = detect_payload (args_text args)).
Proof.
  intros Hun. split; intros Hmode; unfold async_main; rewrite Hmode.
  - destruct (translate_text_unresolved K W (Translator_default D) (args_text args)
                (args_dest args) (args_src args) Hun) as (code & Hrun & Hcode).
    simpl. unfold mbind, M_bind. rewrite Hrun.
    destruct (close_total W (Translator_default D)) as [h ->].
    eexists code, _. split; [reflexivity|]. split; [exact Hcode|].
    simpl. repeat split.
  - destruct (request_of_total (Translator_default D) POST (detect_url K)
                (detect_payload (args_text args)))
      as (req & Hreq & _ & Hurl & Hdata & _).
    exists req. rewrite (detect_run K W _ _ _ Hreq).
    assert (Hlog : log (sent (Translator_default D) req) = [req]).
    { unfold sent. simpl. unfold Translator_default, construct, __init__. reflexivity. }
    split; [|auto].
    destruct (remote W _ req) as [status body|msg].
    + destruct (fst (detect_response status body _)) as [d|e];
        destruct (close_total W (sent (Translator_default D) req)) as [h ->];
        exact Hlog.
    + destruct (close_total W (sent (Translator_default D) req)) as [h ->].
      exact Hlog.
Qed.

End CommandLine.

(** ** The further properties at work *)

Lemma get_languages_ignores_status_witness :
  fst (get_languages two_languages
         (answering (Reply 500 (Some (JDict {[ "result" := JList [JStr "en_US"] ]}))))
         (fresh_client true))
  = Ok (JList [JStr "en_US"]).
Proof.
  exact (get_languages_ignores_status two_languages
           (answering (Reply 500 (Some (JDict {[ "result" := JList [JStr "en_US"] ]}))))
           (fresh_client true) _ 500 _ eq_refl eq_refl).
Defined.

Lemma translate_sends_one_post_witness :
  ∃ req,
    log (snd (translate two_languages (answering (Reply 200 (Some bonjour)))
                (Text "Hello") "French" "en" (fresh_client false))) = [req] ∧
    req_method req = POST ∧ req_url req = TRANSLATE_URL two_languages ∧
    field "to" (req_data req) = Some "fr_FR" ∧
    field "text" (req_data req) = Some "Hello" ∧
    field "from" (req_data req) = Some "en_US" ∧
    req_proxy req = None ∧ req_proxy_auth req = None.
Proof.
  exact (translate_sends_one_post two_languages (answering (Reply 200 (Some bonjour)))
           (fresh_client false) "Hello" "French" "en" "fr_FR" "en_US" eq_refl eq_refl).
Defined.

Example html_error_page_is_raised :
  fst (translate two_languages (answering (Reply 502 None))
         (Text "Hello") "fr" "auto" (fresh_client false))
  = Raise JSONDecodeError ∧
  fst (detect two_languages (answering (No_reply "timeout"))
         (Text "Hello") (fresh_client false))
  = Raise (ClientError "timeout").
Proof. split; reflexivity. Qed.

Lemma undecodable_body_is_raised_witness :
  fst (translate two_languages (answering (Reply 502 None))
         (Text "Hello") "fr" "auto" (fresh_client false))
  = Raise JSONDecodeError ∧
  fst (translate two_languages (answering (Reply 502 (Some JNull)))
         (Text "Hello") "fr" "auto" (fresh_client false))
  = Ok (One (degraded "Hello" "fr" "auto" JNull)).
Proof.
  assert (Hstatus : 502 ≠ 200) by discriminate.
  split.
  - destruct (undecodable_body_is_raised two_languages (answering (Reply 502 None))
                (fresh_client false) 502) as (Htranslate & _).
    exact (Htranslate "Hello" "fr" "auto" "fr_FR" "auto" hello_request
             eq_refl eq_refl eq_refl eq_refl).
  - destruct (undecodable_body_is_raised two_languages
                (answering (Reply 502 (Some JNull))) (fresh_client false) 502)
      as (_ & _ & _ & Hblank & _).
    exact (Hblank "Hello" "fr" "auto" "fr_FR" "auto" hello_request
             eq_refl eq_refl eq_refl eq_refl Hstatus).
Defined.

Lemma non_object_body_witness :
  fst (translate two_languages (answering (Reply 200 (Some (JList []))))
         (Text "Hello") "fr" "auto" (fresh_client false))
  = Raise (AttributeError "get").
Proof.
  destruct (non_object_body two_languages (answering (Reply 200 (Some (JList []))))
              (fresh_client false) (JList []) eq_refl) as [Htranslate _].
  destruct (Htranslate "Hello" "fr" "auto" "fr_FR" "auto" hello_request 200
              eq_refl eq_refl eq_refl eq_refl) as [Hraises _].
  exact (Hraises eq_refl).
Defined.

Lemma degraded_equals_empty_success_witness :
  fst (translate two_languages (answering (Reply 500 (Some (JDict ∅))))
         (Text "Hello") "fr" "en" (fresh_client false))
  = fst (translate two_languages (answering (Reply 200 (Some (JDict ∅))))
           (Text "Hello") "fr" "en" (fresh_client false)).
Proof.
  assert (Hsrc : "en_US" ≠ "auto") by discriminate.
  exact (degraded_equals_empty_success two_languages
           (answering (Reply 500 (Some (JDict ∅))))
           (answering (Reply 200 (Some (JDict ∅))))
           (fresh_client false) "Hello" "fr" "en" "fr_FR" "en_US" _ 500 ∅
           eq_refl eq_refl Hsrc eq_refl eq_refl eq_refl eq_refl eq_refl
           (or_introl eq_refl)).
Defined.

Lemma proxy_modes_exclude_each_other_witness :
  let st0 := construct "token" false None (Some "http://proxy:8080")
               (Some ("user", "secret")) 100 in
  _proxy_url (self st0) = Some "http://proxy:8080" ∧
  via st0 = Some (TCPConnector 100) ∧
  proxy (self st0) = Some "http://proxy:8080" ∧
  proxy_auth (self st0) = Some {| login := "user"; password := "secret" |} ∧
  _use_proxy_connector (self st0) = false.
Proof.
  intros st0.
  apply (proxy_modes_exclude_each_other (answering (Reply 200 (Some bonjour))) st0
           (Some "http://proxy:8080") (Some ("user", "secret")) 100).
  left. exists "token", false, None. reflexivity.
Defined.

Lemma change_proxy_raises_on_close_failure_witness :
  change_proxy (failing_close (Reply 200 (Some bonjour)))
    (Some "socks5://127.0.0.1:1080") None (fresh_client false)
  = (Raise (ClientError "close failed"), fresh_client false) ∧
  ∃ h', close (failing_close (Reply 200 (Some bonjour))) (fresh_client false)
        = (Ok tt, {| self := closed_client (self (fresh_client false)); heap := h';
                     log := log (fresh_client false) |}).
Proof.
  exact (change_proxy_raises_on_close_failure (failing_close (Reply 200 (Some bonjour)))
           (fresh_client false) 1%nat (ClientError "close failed")
           (heap (fresh_client false)) (Some "socks5://127.0.0.1:1080") None
           eq_refl eq_refl eq_refl).
Defined.

Lemma change_proxy_on_closed_client_witness :
  let W := answering (Reply 200 (Some bonjour)) in
  let st := snd (close W (fresh_client false)) in
  (∃ st0,
     change_proxy W (Some "socks5://127.0.0.1:1080") None st = (Ok tt, st0) ∧
     via st0 = Some (ProxyConnector "socks5://127.0.0.1:1080") ∧
     log st0 = []) ∧
  (∃ st0,
     change_proxy W (Some "socks5h://127.0.0.1:1080") None st
     = (Raise (ValueError_argument "socks5h://127.0.0.1:1080"), st0) ∧
     _session (self st0) = None ∧ connector (self st0) = None ∧
     heap st0 = heap st ∧ log st0 = log st) ∧
  (∃ st0,
     change_proxy W (Some "http://proxy:8080") (Some ("us:er", "secret")) st
     = (Raise (ValueError_argument "us:er"), st0) ∧
     _session (self st0) = None ∧ connector (self st0) = None ∧
     heap st0 = heap st ∧ log st0 = log st).
Proof.
  intros W st.
  split; [|split].
  - exact (proj2 (change_proxy_on_closed_client W st
                    (Some "socks5://127.0.0.1:1080") None eq_refl eq_refl)).
  - exact (proj2 (change_proxy_on_closed_client W st
                    (Some "socks5h://127.0.0.1:1080") None eq_refl eq_refl)).
  - exact (proj2 (change_proxy_on_closed_client W st
                    (Some "http://proxy:8080") (Some ("us:er", "secret"))
                    eq_refl eq_refl)).
Defined.

Lemma results_echo_the_input_witness :
  match translate two_languages shouting nested_input "fr" "auto" (fresh_client false) with
  | (Ok r, _) =>
    origin <$> flatten r = ["a"; "b"; "c"] ∧ Forall (λ x, dest x = "fr") (flatten r)
  | (Raise _, _) => False
  end.
Proof.
  destruct (translate two_languages shouting nested_input "fr" "auto"
              (fresh_client false)) as [[r|e] st'] eqn:Hrun.
  - exact (results_echo_the_input two_languages shouting nested_input "fr" "auto"
             (fresh_client false) r st' Hrun).
  - vm_compute in Hrun. discriminate Hrun.
Defined.

Lemma shouting_always_answers : always_answers_objects shouting.
Proof.
  intros l req. simpl. destruct (field "text" (req_data req)); eauto.
Qed.

Lemma non_raising_mode_returns_witness :
  (∃ r, fst (translate two_languages shouting nested_input "fr" "auto"
               (fresh_client false)) = Ok r) ∧
  (∃ r, fst (detect two_languages shouting nested_input (fresh_client false)) = Ok r).
Proof.
  exact (non_raising_mode_returns two_languages shouting (fresh_client false)
           "fr" "auto" "fr_FR" "auto" shouting_always_answers eq_refl eq_refl eq_refl
           nested_input).
Defined.

Lemma two_languages_well_formed : aliases_lead_to_full_codes two_languages.
Proof.
  split; (apply map_Forall_insert_2; [eexists; reflexivity|]);
    apply map_Forall_singleton; eexists; reflexivity.
Qed.

Lemma normalized_codes_are_canonical_witness :
  ("fr_FR" = "auto" ∨ is_Some (LANGUAGES two_languages !! "fr_FR")) ∧
  _normalize_lang two_languages "fr_FR" = Ok "fr_FR".
Proof.
  exact (normalized_codes_are_canonical two_languages "French" "fr_FR"
           two_languages_well_formed eq_refl).
Defined.

Lemma async_main_unresolved_language_witness :
  ∃ code st,
    async_main two_languages (answering (Reply 200 (Some bonjour))) example_defaults
      {| args_text := "Hello"; args_dest := "klingon"; args_src := "auto";
         args_detect := false |}
    = (Raise (ValueError code), st, []) ∧
    (code = "klingon" ∨ code = "auto") ∧
    log st = [] ∧ _session (self st) = None ∧ connector (self st) = None.
Proof.
  assert (Hun : unresolved two_languages "klingon")
    by (repeat split; [discriminate|reflexivity..]).
  destruct (async_main_unresolved_language two_languages
              (answering (Reply 200 (Some bonjour))) example_defaults
              {| args_text := "Hello"; args_dest := "klingon"; args_src := "auto";
                 args_detect := false |} (or_introl Hun)) as [Htranslate _].
  exact (Htranslate eq_refl).
Defined.

(** The tool with the parser's defaults: the destination printed is the
    alias given, the source the one the remote side detected. *)
Example async_main_prints :
  let '(r, st, out) :=
    async_main two_languages (answering (Reply 200 (Some bonjour))) example_defaults
      (parse_defaults "Hello") in
  r = Ok tt ∧
  out = ["[en_US] Hello" +:+ newline +:+ "    ->" +:+ newline +:+ "[en] Bonjour"] ∧
  field "to" <$> (req_data <$> log st) = [Some "en_US"] ∧
  _session (self st) = None.
Proof. vm_compute. repeat split. Qed.
